(** * Python-Tetris: a shallow embedding of [tetris.py]

    The game logic of [tetris.py] (the [Piece] and [Tetris] classes) is
    embedded as Rocq functions.  Integers are [Z], Python lists are Rocq
    lists indexed the way Python indexes them (negative indices count from
    the end, anything else out of range raises [IndexError]), the mutable
    [Tetris] object is a record threaded through a small state-and-exception
    monad, and the two calls of [random.choice] in [new_piece] are an
    explicit argument of the operations that may spawn a piece.  The score
    label is output only and is left out; [draw_board] is modelled by the
    rectangles it creates on the canvas and by whether it returns or
    raises, which is all that [update] sees of it. *)

From Stdlib Require Import ZArith String List Bool Lia.
Import ListNotations.
Open Scope Z_scope.

(** ** Game dimensions (lines 4-11 of the source) *)

Definition CANVAS_WIDTH : Z := 300.
Definition CANVAS_HEIGHT : Z := 600.
Definition BLOCK_SIZE : Z := 30.
Definition BOARD_WIDTH : Z := CANVAS_WIDTH / BLOCK_SIZE.
Definition BOARD_HEIGHT : Z := CANVAS_HEIGHT / BLOCK_SIZE.
Definition FALL_SPEED : Z := 1.
Definition FAST_DROP_SPEED : Z := 100.

(** ** Python sequences *)

(** A shape is a sequence of rows of integer cells; after [rotate] the rows
    are tuples, before they are lists: both are sequences here. *)
Definition matrix : Type := list (list Z).

(** [l[i]]: [None] stands for [IndexError]. *)
Definition py_index {A : Type} (l : list A) (i : Z) : option A :=
  let n := Z.of_nat (length l) in
  if (0 <=? i) && (i <? n) then nth_error l (Z.to_nat i)
  else if (- n <=? i) && (i <? 0) then nth_error l (Z.to_nat (i + n))
  else None.

Fixpoint replace_nth {A : Type} (l : list A) (k : nat) (v : A) : list A :=
  match l, k with
  | [], _ => []
  | _ :: l', O => v :: l'
  | a :: l', S k' => a :: replace_nth l' k' v
  end.

(** [l[i] = v]: [None] stands for [IndexError]. *)
Definition py_setitem {A : Type} (l : list A) (i : Z) (v : A) : option (list A) :=
  let n := Z.of_nat (length l) in
  if (0 <=? i) && (i <? n) then Some (replace_nth l (Z.to_nat i) v)
  else if (- n <=? i) && (i <? 0) then Some (replace_nth l (Z.to_nat (i + n)) v)
  else None.

(** One round of [zip]: the next element of every row, and what is left of
    the rows; [None] as soon as one row is exhausted. *)
Fixpoint heads_tails {A : Type} (rows : list (list A))
  : option (list A * list (list A)) :=
  match rows with
  | [] => Some ([], [])
  | [] :: _ => None
  | (a :: r) :: rows' =>
      match heads_tails rows' with
      | None => None
      | Some (hs, ts) => Some (a :: hs, r :: ts)
      end
  end.

(** [zip] applied to [first] and the rows of [rest]: stops at the shortest argument. *)
Fixpoint zip_from {A : Type} (first : list A) (rest : list (list A))
  : list (list A) :=
  match first with
  | [] => []
  | a :: first' =>
      match heads_tails rest with
      | None => []
      | Some (hs, ts) => (a :: hs) :: zip_from first' ts
      end
  end.

(** [zip] applied to the unpacked [rows]; with no argument at all it is empty. *)
Definition zip_star {A : Type} (rows : list (list A)) : list (list A) :=
  match rows with
  | [] => []
  | first :: rest => zip_from first rest
  end.

(** [random.choice(l)] with the drawn number [r] made explicit. *)
Definition random_choice {A : Type} (d : A) (l : list A) (r : nat) : A :=
  nth (Nat.modulo r (length l)) l d.

(** ** Shapes and colours (lines 15-27) *)

Definition SHAPES : list matrix :=
  [ [[1; 1; 1; 1]];
    [[1; 1]; [1; 1]];
    [[0; 1; 0]; [1; 1; 1]];
    [[1; 1; 0]; [0; 1; 1]];
    [[0; 1; 1]; [1; 1; 0]];
    [[1; 1; 1]; [1; 0; 0]];
    [[1; 1; 1]; [0; 0; 1]] ].

Definition SHAPE_COLORS : list string :=
  [ "cyan"; "yellow"; "purple"; "green"; "red"; "orange"; "blue" ]%string.

(** ** The [Piece] class (lines 30-39) *)

Module Piece.

Record t : Type := mk
  { shape : matrix;
    color : string;
    x : Z;
    y : Z;
    pixel_y : Z }.

(** [len(shape[0])]; the constructor is only ever called on members of
    [SHAPES], which all have a first row. *)
Definition first_row_len (s : matrix) : Z :=
  Z.of_nat (length (hd [] s)).

(** [Piece.__init__]. *)
Definition init (s : matrix) (c : string) : t :=
  {| shape := s;
     color := c;
     x := BOARD_WIDTH / 2 - first_row_len s / 2;
     y := 0;
     pixel_y := 0 |}.

(** The new value of [self.shape]: the list of the [zip] of the unpacked reversed rows [self.shape[::-1]]. *)
Definition rotate_shape (s : matrix) : matrix := zip_star (rev s).

(** [Piece.rotate]. *)
Definition rotate (p : t) : t :=
  {| shape := rotate_shape (shape p);
     color := color p;
     x := x p;
     y := y p;
     pixel_y := pixel_y p |}.

End Piece.

(** Dimensions of a matrix and access to one cell. *)
Definition rows (m : matrix) : nat := length m.
Definition cols (m : matrix) : nat := length (hd [] m).
Definition rectangular (m : matrix) : Prop :=
  Forall (fun row => length row = cols m) m.
Definition cell_at (m : matrix) (i j : nat) : option Z :=
  match nth_error m i with
  | Some row => nth_error row j
  | None => None
  end.

(** ** The [Tetris] class: state *)

(** A board cell is [None] (empty) or the colour of the piece locked there. *)
Definition cell : Type := option string.
Definition board_t : Type := list (list cell).

Record Tetris : Type := mkTetris
  { board : board_t;
    current_piece : Piece.t;
    score : Z;
    running : bool;
    drop_speed : Z }.

Definition set_board (g : Tetris) (b : board_t) : Tetris :=
  {| board := b; current_piece := current_piece g; score := score g;
     running := running g; drop_speed := drop_speed g |}.
Definition set_current_piece (g : Tetris) (p : Piece.t) : Tetris :=
  {| board := board g; current_piece := p; score := score g;
     running := running g; drop_speed := drop_speed g |}.
Definition set_score (g : Tetris) (s : Z) : Tetris :=
  {| board := board g; current_piece := current_piece g; score := s;
     running := running g; drop_speed := drop_speed g |}.
Definition set_running (g : Tetris) (r : bool) : Tetris :=
  {| board := board g; current_piece := current_piece g; score := score g;
     running := r; drop_speed := drop_speed g |}.
Definition set_drop_speed (g : Tetris) (d : Z) : Tetris :=
  {| board := board g; current_piece := current_piece g; score := score g;
     running := running g; drop_speed := d |}.

Definition set_shape (p : Piece.t) (s : matrix) : Piece.t :=
  {| Piece.shape := s; Piece.color := Piece.color p; Piece.x := Piece.x p;
     Piece.y := Piece.y p; Piece.pixel_y := Piece.pixel_y p |}.
Definition set_x (p : Piece.t) (v : Z) : Piece.t :=
  {| Piece.shape := Piece.shape p; Piece.color := Piece.color p; Piece.x := v;
     Piece.y := Piece.y p; Piece.pixel_y := Piece.pixel_y p |}.
Definition set_y (p : Piece.t) (v : Z) : Piece.t :=
  {| Piece.shape := Piece.shape p; Piece.color := Piece.color p; Piece.x := Piece.x p;
     Piece.y := v; Piece.pixel_y := Piece.pixel_y p |}.
Definition set_pixel_y (p : Piece.t) (v : Z) : Piece.t :=
  {| Piece.shape := Piece.shape p; Piece.color := Piece.color p; Piece.x := Piece.x p;
     Piece.y := Piece.y p; Piece.pixel_y := v |}.

(** ** Methods as computations on the object

    A method call either returns a value or raises [IndexError]; in both
    cases the attributes assigned so far stay assigned. *)

Inductive result (A : Type) : Type :=
| Val (a : A)
| IndexError.
Arguments Val {A} a.
Arguments IndexError {A}.

Definition M (A : Type) : Type := Tetris -> result A * Tetris.

Definition ret {A : Type} (a : A) : M A := fun g => (Val a, g).
Definition bind {A B : Type} (m : M A) (k : A -> M B) : M B :=
  fun g =>
    match m g with
    | (Val a, g') => k a g'
    | (IndexError, g') => (IndexError, g')
    end.
Definition get : M Tetris := fun g => (Val g, g).
Definition modify (f : Tetris -> Tetris) : M unit := fun g => (Val tt, f g).

Declare Scope py_scope.
Delimit Scope py_scope with py.
Notation "x <- m ;; k" := (bind m (fun x => k))
  (at level 61, m at next level, right associativity) : py_scope.
Notation "m ;; k" := (bind m (fun _ => k))
  (at level 61, right associativity) : py_scope.
Open Scope py_scope.

(** [for i, a in enumerate(l): body], counting from [i]. *)
Fixpoint for_enumM {A : Type} (body : Z -> A -> M unit) (i : Z) (l : list A)
  : M unit :=
  match l with
  | [] => ret tt
  | a :: l' => body i a ;; for_enumM body (i + 1) l'
  end.

(** [a and b], where evaluating [b] is a method call. *)
Definition andM (a : bool) (b : M bool) : M bool :=
  if a then b else ret false.

(** ** [valid_move] (lines 96-107)

    The loops are run over the board and the piece alone; next to what the
    loops do, the board positions [(row, column)] they read are recorded. *)

Inductive flow : Type :=
| Next                (* the statement is done, go on *)
| Return (b : bool)   (* [return b] *)
| Raise.              (* [IndexError] *)

Definition traced : Type := list (Z * Z) * flow.

(** [for i, a in enumerate(l): body], counting from [i], left by the first
    [return] or exception. *)
Fixpoint for_enum {A : Type} (body : Z -> A -> traced) (i : Z) (l : list A)
  : traced :=
  match l with
  | [] => ([], Next)
  | a :: l' =>
      match body i a with
      | (t, Next) => let (t', f) := for_enum body (i + 1) l' in (t ++ t', f)
      | r => r
      end
  end.

Definition is_not_None (c : cell) : bool :=
  match c with Some _ => true | None => false end.
Definition is_None (c : cell) : bool := negb (is_not_None c).

(** The expression [self.board[r][c]]. *)
Definition board_get (b : board_t) (r c : Z) : option cell :=
  match py_index b r with
  | Some row => py_index row c
  | None => None
  end.

(** Lines 100-106: the body of the inner loop. *)
Definition valid_cell (b : board_t) (p : Piece.t) (dx dy : Z)
  (yi xi : Z) (v : Z) : traced :=
  if v =? 1 then
    let new_x := Piece.x p + xi + dx in
    let new_y := Piece.y p + yi + dy in
    if (new_x <? 0) || (new_x >=? BOARD_WIDTH) || (new_y >=? BOARD_HEIGHT)
    then ([], Return false)
    else if new_y >=? 0 then
      match board_get b new_y new_x with
      | None => ([(new_y, new_x)], Raise)
      | Some c =>
          ([(new_y, new_x)], if is_not_None c then Return false else Next)
      end
    else ([], Next)
  else ([], Next).

Definition valid_move_traced (b : board_t) (p : Piece.t) (dx dy : Z) : traced :=
  for_enum (fun yi row => for_enum (fun xi v => valid_cell b p dx dy yi xi v) 0 row)
    0 (Piece.shape p).

(** The board positions read by one call. *)
Definition valid_move_reads (b : board_t) (p : Piece.t) (dx dy : Z)
  : list (Z * Z) :=
  fst (valid_move_traced b p dx dy).

(** What the call does: falling out of the loops is [return True]. *)
Definition valid_move_on (b : board_t) (p : Piece.t) (dx dy : Z) : result bool :=
  match snd (valid_move_traced b p dx dy) with
  | Next => Val true
  | Return r => Val r
  | Raise => IndexError
  end.

(** [Tetris.valid_move]. *)
Definition valid_move (dx dy : Z) : M bool :=
  fun g => (valid_move_on (board g) (current_piece g) dx dy, g).

(** ** Spawning, locking and clearing *)

(** [Tetris.new_piece] (lines 64-68); [rnd] holds the two random draws. *)
Definition new_piece (rnd : nat * nat) : Piece.t :=
  let shape := random_choice [] SHAPES (fst rnd) in
  let color := random_choice EmptyString SHAPE_COLORS (snd rnd) in
  Piece.init shape color.

(** The assignment [self.board[r][c] = v]: the row is looked up, then
    updated in place; no two rows of the board are the same object. *)
Definition board_setitem (r c : Z) (v : cell) : M unit :=
  fun g =>
    match py_index (board g) r with
    | None => (IndexError, g)
    | Some row =>
        match py_setitem row c v with
        | None => (IndexError, g)
        | Some row' =>
            match py_setitem (board g) r row' with
            | Some b' => (Val tt, set_board g b')
            | None => (IndexError, g)
            end
        end
    end.

Definition empty_row : list cell :=
  repeat None (Z.to_nat BOARD_WIDTH).

(** [any(cell is None for cell in row)]. *)
Definition has_empty_cell (row : list cell) : bool := existsb is_None row.

(** [Tetris.clear_full_rows] (lines 141-151). *)
Definition clear_full_rows : M unit :=
  g <- get ;;
  let new_board := filter has_empty_cell (board g) in
  let cleared_rows := BOARD_HEIGHT - Z.of_nat (length new_board) in
  modify (fun g => set_score g (score g + cleared_rows * 100)) ;;
  let new_board := repeat empty_row (Z.to_nat cleared_rows) ++ new_board in
  modify (fun g => set_board g new_board).

(** [Tetris.game_over] (lines 153-157). *)
Definition game_over : M unit :=
  modify (fun g => set_running g false).

(** Lines 111-114 of [lock_piece]: the colour of the piece is written into
    the board at every occupied cell. *)
Definition lock_cells : M unit :=
  g <- get ;;
  for_enumM (fun yi row =>
    for_enumM (fun xi v =>
      if v =? 1 then
        g <- get ;;
        let p := current_piece g in
        board_setitem (Piece.y p + yi) (Piece.x p + xi) (Some (Piece.color p))
      else ret tt) 0 row) 0 (Piece.shape (current_piece g)).

(** [Tetris.lock_piece] (lines 109-120). *)
Definition lock_piece (rnd : nat * nat) : M unit :=
  lock_cells ;;
  clear_full_rows ;;
  modify (fun g => set_current_piece g (new_piece rnd)) ;;
  ok <- valid_move 0 1 ;;
  at_top <- andM (negb ok) (g <- get ;; ret (Piece.y (current_piece g) =? 0)) ;;
  if at_top then game_over else ret tt.

(** [Tetris.check_collision] (lines 136-139). *)
Definition check_collision (rnd : nat * nat) : M unit :=
  ok <- valid_move 0 1 ;;
  if negb ok then lock_piece rnd else ret tt.

(** ** Drawing (lines 70-94)

    [draw_board] empties the canvas and creates rectangles on it; the value
    below is what the canvas holds when the call ends, and whether the call
    returned or raised. *)

(** One [create_rectangle]: the two corners, the fill colour, the outline. *)
Record rectangle : Type := mkRectangle
  { rx1 : Z; ry1 : Z; rx2 : Z; ry2 : Z; fill : string; outline : string }.

(** [range(n)]. *)
Definition range (n : Z) : list Z := map Z.of_nat (seq 0 (Z.to_nat n)).

(** Lines 78-82: the rectangle of the locked cell at row [y], column [x]. *)
Definition locked_square (y x : Z) (c : string) : rectangle :=
  {| rx1 := x * BLOCK_SIZE; ry1 := y * BLOCK_SIZE;
     rx2 := (x + 1) * BLOCK_SIZE; ry2 := (y + 1) * BLOCK_SIZE;
     fill := c; outline := "black" |}.

(** Lines 88-94: the rectangle of cell [(y, x)] of the shape of the piece. *)
Definition piece_square (p : Piece.t) (y x : Z) : rectangle :=
  {| rx1 := (Piece.x p + x) * BLOCK_SIZE;
     ry1 := Piece.pixel_y p + y * BLOCK_SIZE;
     rx2 := (Piece.x p + x + 1) * BLOCK_SIZE;
     ry2 := Piece.pixel_y p + y * BLOCK_SIZE + BLOCK_SIZE;
     fill := Piece.color p; outline := "black" |}.

(** Lines 76-82: the inner loop over the columns [xs] of row [y]. *)
Fixpoint draw_locked_cells (b : board_t) (y : Z) (xs : list Z)
  : list rectangle * result unit :=
  match xs with
  | [] => ([], Val tt)
  | x :: xs' =>
      match board_get b y x with
      | None => ([], IndexError)
      | Some c =>
          let here := match c with
                      | Some name => [locked_square y x name]
                      | None => []
                      end in
          let (rs, r) := draw_locked_cells b y xs' in
          (here ++ rs, r)
      end
  end.

(** Lines 75-82: the loop over the rows [ys]. *)
Fixpoint draw_locked_rows (b : board_t) (ys xs : list Z)
  : list rectangle * result unit :=
  match ys with
  | [] => ([], Val tt)
  | y :: ys' =>
      match draw_locked_cells b y xs with
      | (rs, Val _) =>
          let (rs', r) := draw_locked_rows b ys' xs in (rs ++ rs', r)
      | (rs, IndexError) => (rs, IndexError)
      end
  end.

(** Lines 86-94: the inner loop over one row of the shape, from column
    index [x]. *)
Fixpoint draw_piece_cells (p : Piece.t) (y x : Z) (row : list Z)
  : list rectangle :=
  match row with
  | [] => []
  | v :: row' =>
      (if v =? 1 then [piece_square p y x] else [])
        ++ draw_piece_cells p y (x + 1) row'
  end.

(** Lines 85-94: the loop over the rows of the shape, from row index [y]. *)
Fixpoint draw_piece_rows (p : Piece.t) (y : Z) (rows : list (list Z))
  : list rectangle :=
  match rows with
  | [] => []
  | row :: rows' =>
      draw_piece_cells p y 0 row ++ draw_piece_rows p (y + 1) rows'
  end.

(** [Tetris.draw_board]. *)
Definition draw_board (g : Tetris) : list rectangle * result unit :=
  match draw_locked_rows (board g) (range BOARD_HEIGHT) (range BOARD_WIDTH) with
  | (locked, Val _) =>
      (locked ++ draw_piece_rows (current_piece g) 0
                   (Piece.shape (current_piece g)), Val tt)
  | (locked, IndexError) => (locked, IndexError)
  end.

(** The call [self.draw_board()] made by a method: the canvas is not part
    of the object, so the call leaves the state as it is and either returns
    or raises. *)
Definition redraw : M unit :=
  fun g => (snd (draw_board g), g).

(** ** Input and the game loop *)

Definition modify_piece (f : Piece.t -> Piece.t) : M unit :=
  modify (fun g => set_current_piece g (f (current_piece g))).

(** [Tetris.handle_key] (lines 122-134); [keysym] is [event.keysym]. *)
Definition handle_key (keysym : string) : M unit :=
  left <- andM (keysym =? "Left")%string (valid_move (-1) 0) ;;
  if left then modify_piece (fun p => set_x p (Piece.x p - 1))
  else
    right <- andM (keysym =? "Right")%string (valid_move 1 0) ;;
    if right then modify_piece (fun p => set_x p (Piece.x p + 1))
    else if (keysym =? "Down")%string then
      modify (fun g => set_drop_speed g FAST_DROP_SPEED)
    else if (keysym =? "Up")%string then
      g <- get ;;
      let original_shape := Piece.shape (current_piece g) in
      modify_piece Piece.rotate ;;
      ok <- valid_move 0 0 ;;
      if negb ok then modify_piece (fun p => set_shape p original_shape)
      else ret tt
    else ret tt.

(** Lines 162-167 of [update], up to the call of [check_collision]: the
    pixel advance and, at a block boundary, the move to the next row.  The
    value says whether the boundary was reached. *)
Definition gravity_step : M bool :=
  g <- get ;;
  modify_piece (fun p => set_pixel_y p (Piece.pixel_y p + drop_speed g)) ;;
  g <- get ;;
  let p := current_piece g in
  if Piece.pixel_y p >=? (Piece.y p + 1) * BLOCK_SIZE then
    modify_piece (fun p => set_pixel_y p ((Piece.y p + 1) * BLOCK_SIZE)) ;;
    modify_piece (fun p => set_y p (Piece.y p + 1)) ;;
    ret true
  else ret false.

(** [Tetris.update] (lines 159-176).  The board is redrawn (line 170)
    after the piece has moved and before the drop speed is reset (line
    173), so a raise in [draw_board] skips the reset and the rescheduling.
    The value is [true] when the next tick was scheduled with
    [self.root.after]. *)
Definition update (rnd : nat * nat) : M bool :=
  crossed <- gravity_step ;;
  (if crossed then check_collision rnd else ret tt) ;;
  redraw ;;
  modify (fun g => set_drop_speed g FALL_SPEED) ;;
  g <- get ;;
  ret (running g).

(** Lines 170-176 of [update] on the state [g]: what the call ends with
    once the piece has been moved and, if need be, locked. *)
Definition update_tail (g : Tetris) : result bool * Tetris :=
  match snd (draw_board g) with
  | Val _ => (Val (running g), set_drop_speed g FALL_SPEED)
  | IndexError => (IndexError, g)
  end.

(** [Tetris.__init__] (lines 43-62), before its final call of [update]. *)
Definition empty_board : board_t :=
  repeat empty_row (Z.to_nat BOARD_HEIGHT).

Definition init (rnd : nat * nat) : Tetris :=
  {| board := empty_board;
     current_piece := new_piece rnd;
     score := 0;
     running := true;
     drop_speed := FALL_SPEED |}.

(** ** The event loop

    The toolkit calls [handle_key] for every key event and [update] for a
    timer that was scheduled; an exception raised by a callback is reported
    and the loop goes on, with whatever the callback had assigned. *)

Inductive event : Type :=
| Key (keysym : string)
| Tick (rnd : nat * nat).

Record world : Type := mkWorld
  { game : Tetris;
    pending : bool (* a call of [update] is scheduled *) }.

Definition dispatch (w : world) (e : event) : world :=
  match e with
  | Key keysym =>
      {| game := snd (handle_key keysym (game w)); pending := pending w |}
  | Tick rnd =>
      if pending w then
        match update rnd (game w) with
        | (Val scheduled, g') => {| game := g'; pending := scheduled |}
        | (IndexError, g') => {| game := g'; pending := false |}
        end
      else w
  end.

(** [Tetris(root)] followed by [root.mainloop()] on the events [es]; the
    constructor ends with a first call of [update]. *)
Definition mainloop (rnd : nat * nat) (es : list event) : world :=
  fold_left dispatch es
    (dispatch {| game := init rnd; pending := true |} (Tick rnd)).

(** ** Specification vocabulary *)

(** The board has [BOARD_HEIGHT] rows of [BOARD_WIDTH] cells. *)
Definition wf_board (b : board_t) : Prop :=
  Z.of_nat (length b) = BOARD_HEIGHT /\
  Forall (fun row => Z.of_nat (length row) = BOARD_WIDTH) b.

(** Position [(row, col)] cannot take a cell of the piece: it is beside or
    below the board, or it is on the board (row 0 or lower) and locked. *)
Definition blocked (b : board_t) (row col : Z) : Prop :=
  col < 0 \/ col >= BOARD_WIDTH \/ row >= BOARD_HEIGHT \/
  (row >= 0 /\ exists c, board_get b row col = Some (Some c)).

(** Cell [(yi, xi)] of the shape of [p] is occupied. *)
Definition occupied (p : Piece.t) (yi xi : nat) : Prop :=
  cell_at (Piece.shape p) yi xi = Some 1.

(** Some occupied cell of [p], moved by [(dx, dy)], is blocked. *)
Definition some_cell_blocked (b : board_t) (p : Piece.t) (dx dy : Z) : Prop :=
  exists yi xi : nat,
    occupied p yi xi /\
    blocked b (Piece.y p + Z.of_nat yi + dy) (Piece.x p + Z.of_nat xi + dx).

(** A row with no empty cell. *)
Definition full_row (row : list cell) : bool := negb (has_empty_cell row).

(** [wf_board] as a test, for boards that are given in full. *)
Definition wf_boardb (b : board_t) : bool :=
  (Z.of_nat (length b) =? BOARD_HEIGHT)
  && forallb (fun row => Z.of_nat (length row) =? BOARD_WIDTH) b.

(** The [i]-th element of every row. *)
Definition column {A : Type} (i : nat) (m : list (list A)) : list (option A) :=
  map (fun row => nth_error row i) m.

Fixpoint rotate_times (n : nat) (s : matrix) : matrix :=
  match n with
  | O => s
  | S n' => Piece.rotate_shape (rotate_times n' s)
  end.

(** [m] keeps the property [P] of the object, whether it returns or raises. *)
Definition keeps {A : Type} (P : Tetris -> Prop) (m : M A) : Prop :=
  forall g, P g -> P (snd (m g)).

(** Everything but the board is as in [g0]. *)
Definition same_but_board (g0 g : Tetris) : Prop :=
  current_piece g = current_piece g0 /\ score g = score g0 /\
  running g = running g0 /\ drop_speed g = drop_speed g0.

(** No tick is pending once the game is over. *)
Definition stopped (w : world) : Prop :=
  running (game w) = false -> pending w = false.

(** The spawned piece has an occupied cell on a locked cell of row 0. *)
Definition spawn_overlaps_row0 (b : board_t) (p : Piece.t) : Prop :=
  exists (yi xi : nat) (c : string),
    occupied p yi xi /\
    Piece.y p + Z.of_nat yi = 0 /\
    board_get b 0 (Piece.x p + Z.of_nat xi) = Some (Some c).

(** ** Concrete games *)

(** The player holds [Down] for one tick: the piece goes one row down. *)
Definition drop_one_row (rnd : nat * nat) : list event :=
  [Key "Down"; Tick rnd].

Definition drop_rows (n : nat) (rnd : nat * nat) : list event :=
  concat (repeat (drop_one_row rnd) n).

(** A T piece is brought down to row 17 and turned upright there; it then
    occupies rows 17 to 19, and [Down] is pressed once more. *)
Definition upright_T_events : list event :=
  drop_rows 17 (0, 0)%nat ++ [Key "Up"; Key "Down"].
Definition upright_T : Tetris := game (mainloop (2, 2)%nat upright_T_events).

(** An O piece is locked in the bottom left corner; the I piece that
    follows is brought down to row 17 and pushed to the left wall, above the
    O piece. *)
Definition I_over_O_events : list event :=
  repeat (Key "Left") 4 ++ drop_rows 18 (0, 0)%nat
    ++ drop_rows 17 (1, 1)%nat ++ repeat (Key "Left") 3 ++ [Key "Down"].
Definition I_over_O : Tetris := game (mainloop (1, 1)%nat I_over_O_events).

(** O pieces are dropped in the middle until the stack reaches row 2. *)
Definition stacked_O_events : list event := drop_rows 90 (1, 1)%nat.


(** A board whose only locked cell is at row 0, column 4, and an O piece
    about to lock in the bottom left corner. *)
Definition row0_board : board_t :=
  replace_nth empty_row 4 (Some "red"%string) :: repeat empty_row 19.
Definition row0_game : Tetris :=
  {| board := row0_board;
     current_piece := Piece.mk [[1; 1]; [1; 1]] "yellow" 0 17 539;
     score := 0; running := true; drop_speed := FALL_SPEED |}.
Definition row0_at_lock : Tetris :=
  {| board := row0_board;
     current_piece := Piece.mk [[1; 1]; [1; 1]] "yellow" 0 18 540;
     score := 0; running := true; drop_speed := FALL_SPEED |}.

(** A board with the bottom row full and one cell locked above it. *)
Definition one_full_row : Tetris :=
  set_board (init (1, 1)%nat)
    (repeat empty_row 18
       ++ [replace_nth empty_row 0 (Some "blue"%string);
           repeat (Some "green"%string) 10]).

(** A piece at the left wall, and an I piece lying on the bottom row. *)
Definition at_left_wall : Tetris :=
  set_current_piece (init (1, 1)%nat) (set_x (new_piece (1, 1)%nat) 0).
Definition I_on_floor : Tetris :=
  set_current_piece (init (0, 0)%nat) (set_y (new_piece (0, 0)%nat) 19).

(** ** Vocabulary for the states of a game in play *)

(** The top row of the board holds no locked cell. *)
Definition top_row_empty (b : board_t) : Prop :=
  nth_error b 0 = Some empty_row.

(** The pixel position of the piece lies in the band of its row. *)
Definition in_band (p : Piece.t) : Prop :=
  0 <= Piece.y p /\
  Piece.y p * BLOCK_SIZE <= Piece.pixel_y p < (Piece.y p + 1) * BLOCK_SIZE.

Definition speed_ok (g : Tetris) : Prop :=
  drop_speed g = FALL_SPEED \/ drop_speed g = FAST_DROP_SPEED.

Definition in_play (g : Tetris) : Prop :=
  wf_board (board g) /\ top_row_empty (board g) /\
  in_band (current_piece g) /\ speed_ok g.


(** The piece [p] taken to column [x + dx] and row [y + dy]. *)
Definition moved (p : Piece.t) (dx dy : Z) : Piece.t :=
  set_y (set_x p (Piece.x p + dx)) (Piece.y p + dy).

(** Position [(row, col)] is on the board. *)
Definition in_grid (row col : Z) : Prop :=
  0 <= row < BOARD_HEIGHT /\ 0 <= col < BOARD_WIDTH.

(** The timer fires once for every element of [rnds], with no key event in
    between; exceptions are reported and the state stays. *)
Definition run_updates (rnds : list (nat * nat)) (g : Tetris) : Tetris :=
  fold_left (fun g rnd => snd (update rnd g)) rnds g.

(** ** Facts about the constants and about indexing *)

Lemma BOARD_WIDTH_eq : BOARD_WIDTH = 10.
Proof. reflexivity. Qed.

Lemma BOARD_HEIGHT_eq : BOARD_HEIGHT = 20.
Proof. reflexivity. Qed.

Lemma wf_boardb_spec (b : board_t) : wf_boardb b = true -> wf_board b.
Proof.
  unfold wf_boardb, wf_board. rewrite andb_true_iff, forallb_forall, Z.eqb_eq.
  intros [Hlen Hrows]. split; [exact Hlen|].
  apply Forall_forall. intros row Hin. apply Z.eqb_eq, Hrows, Hin.
Qed.

Lemma wf_empty_board : wf_board empty_board.
Proof. apply wf_boardb_spec. vm_compute. reflexivity. Qed.

Lemma py_index_nonneg {A : Type} (l : list A) (i : Z) :
  0 <= i < Z.of_nat (length l) ->
  exists a, py_index l i = Some a /\ nth_error l (Z.to_nat i) = Some a.
Proof.
  intros Hi. unfold py_index.
  replace ((0 <=? i) && (i <? Z.of_nat (length l))) with true
    by (symmetry; apply andb_true_iff; split; [apply Z.leb_le | apply Z.ltb_lt]; lia).
  destruct (nth_error l (Z.to_nat i)) as [a|] eqn:E.
  - now exists a.
  - apply nth_error_None in E. lia.
Qed.

Lemma board_get_in_grid (b : board_t) (r c : Z) :
  wf_board b -> 0 <= r < BOARD_HEIGHT -> 0 <= c < BOARD_WIDTH ->
  exists v, board_get b r c = Some v.
Proof.
  intros [Hlen Hrows] Hr Hc. unfold board_get.
  destruct (py_index_nonneg b r) as (row & -> & Hnth); [lia|].
  assert (Hin : In row b) by (eapply nth_error_In; eauto).
  rewrite Forall_forall in Hrows. specialize (Hrows row Hin).
  destruct (py_index_nonneg row c) as (v & -> & _); [lia|].
  now exists v.
Qed.

(** ** Facts about the loops *)

Lemma for_enum_cases {A : Type} (body : Z -> A -> traced) (l : list A) :
  forall i,
    (snd (for_enum body i l) = Next /\
     forall k a, nth_error l k = Some a -> snd (body (i + Z.of_nat k) a) = Next)
    \/
    (exists k a, nth_error l k = Some a /\
                 snd (body (i + Z.of_nat k) a) = snd (for_enum body i l) /\
                 snd (for_enum body i l) <> Next).
Proof.
  induction l as [|a l IH]; intros i; simpl.
  - left. split; [reflexivity|]. intros [|k] a0 H; discriminate.
  - destruct (body i a) as [t f] eqn:Eb. destruct f.
    + destruct (IH (i + 1)) as [[Hn Hall] | (k & a0 & Hk & Hb & Hne)].
      * left. destruct (for_enum body (i + 1) l) as [t' f']. simpl in *.
        split; [assumption|]. intros [|k] a0 H; simpl in H.
        -- injection H as <-. rewrite Z.add_0_r, Eb. reflexivity.
        -- specialize (Hall k a0 H).
           now replace (i + Z.of_nat (S k)) with (i + 1 + Z.of_nat k) by lia.
      * right. exists (S k), a0. destruct (for_enum body (i + 1) l) as [t' f'].
        simpl in *. split; [assumption|].
        now replace (i + Z.pos (Pos.of_succ_nat k)) with (i + 1 + Z.of_nat k) by lia.
    + right. exists 0%nat, a. simpl. rewrite Z.add_0_r, Eb. simpl.
      repeat split; congruence.
    + right. exists 0%nat, a. simpl. rewrite Z.add_0_r, Eb. simpl.
      repeat split; congruence.
Qed.

Lemma for_enum_reads {A : Type} (body : Z -> A -> traced) (l : list A) :
  forall i rc,
    In rc (fst (for_enum body i l)) ->
    exists k a, nth_error l k = Some a /\ In rc (fst (body (i + Z.of_nat k) a)).
Proof.
  induction l as [|a l IH]; intros i rc; simpl; [tauto|].
  destruct (body i a) as [t f] eqn:Eb.
  assert (Hhere : In rc t ->
    exists k a0, nth_error (a :: l) k = Some a0 /\
                 In rc (fst (body (i + Z.of_nat k) a0))).
  { intros H. exists 0%nat, a. simpl. rewrite Z.add_0_r, Eb. auto. }
  destruct f; simpl; auto.
  destruct (for_enum body (i + 1) l) as [t' f'] eqn:Ef. simpl.
  intros H. apply in_app_or in H. destruct H as [H|H]; [auto|].
  destruct (IH (i + 1) rc) as (k & a0 & Hk & Hin); [rewrite Ef; exact H|].
  exists (S k), a0. split; [exact Hk|].
  now replace (i + Z.of_nat (S k)) with (i + 1 + Z.of_nat k) by lia.
Qed.

(** ** Facts about [valid_move] *)

Lemma valid_cell_cases (b : board_t) (p : Piece.t) (dx dy yi xi v : Z) :
  wf_board b ->
  let row := Piece.y p + yi + dy in
  let col := Piece.x p + xi + dx in
  (snd (valid_cell b p dx dy yi xi v) = Return false /\ v = 1 /\ blocked b row col)
  \/
  (snd (valid_cell b p dx dy yi xi v) = Next /\ ~ (v = 1 /\ blocked b row col)).
Proof.
  intros Hwf row col. unfold valid_cell. fold row col.
  destruct (Z.eqb_spec v 1) as [Hv|Hv]; [|right; simpl; tauto].
  destruct ((col <? 0) || (col >=? BOARD_WIDTH) || (row >=? BOARD_HEIGHT)) eqn:Hout.
  - left. simpl. repeat split; try assumption.
    rewrite !orb_true_iff, !Z.geb_leb, Z.ltb_lt, !Z.leb_le in Hout.
    unfold blocked. destruct Hout as [[H|H]|H]; [left | right; left | right; right; left]; lia.
  - rewrite !orb_false_iff, !Z.geb_leb, Z.ltb_ge, !Z.leb_gt in Hout.
    destruct Hout as [[Hc0 HcW] HrH].
    destruct (row >=? 0) eqn:Hr0; rewrite Z.geb_leb in Hr0.
    + apply Z.leb_le in Hr0.
      destruct (board_get_in_grid b row col Hwf) as [c Hget]; [lia | lia |].
      rewrite Hget. destruct c as [name|]; simpl.
      * left. repeat split; try assumption. unfold blocked.
        right; right; right. split; [lia|]. now exists name.
      * right. split; [reflexivity|]. intros [_ Hb]. unfold blocked in Hb.
        destruct Hb as [Hb|[Hb|[Hb|[_ [c Hb]]]]]; try lia. congruence.
    + apply Z.leb_gt in Hr0. right. simpl. split; [reflexivity|].
      intros [_ Hb]. unfold blocked in Hb.
      destruct Hb as [Hb|[Hb|[Hb|[Hb _]]]]; lia.
Qed.

Lemma valid_move_traced_cases (b : board_t) (p : Piece.t) (dx dy : Z) :
  wf_board b ->
  (snd (valid_move_traced b p dx dy) = Next /\ ~ some_cell_blocked b p dx dy)
  \/
  (snd (valid_move_traced b p dx dy) = Return false /\ some_cell_blocked b p dx dy).
Proof.
  intros Hwf. unfold valid_move_traced.
  set (inner := fun yi row =>
         for_enum (fun xi v => valid_cell b p dx dy yi xi v) 0 row).
  destruct (for_enum_cases inner (Piece.shape p) 0)
    as [[Hn Hall] | (k & row & Hk & Hb & Hne)].
  - left. split; [exact Hn|].
    intros (yi & xi & Hocc & Hblk). unfold occupied, cell_at in Hocc.
    destruct (nth_error (Piece.shape p) yi) as [row|] eqn:Hrow; [|discriminate].
    specialize (Hall yi row Hrow). unfold inner in Hall.
    destruct (for_enum_cases (fun xi v => valid_cell b p dx dy (0 + Z.of_nat yi) xi v) row 0)
      as [[_ Hcells] | (j & v & _ & Hv & Hne)]; [|congruence].
    specialize (Hcells xi 1 Hocc).
    destruct (valid_cell_cases b p dx dy (0 + Z.of_nat yi) (0 + Z.of_nat xi) 1 Hwf)
      as [[Hr _] | [_ Hnot]]; [congruence|].
    apply Hnot. rewrite !Z.add_0_l. split; [reflexivity | exact Hblk].
  - right. rewrite <- Hb in *. unfold inner in *.
    destruct (for_enum_cases (fun xi v => valid_cell b p dx dy (0 + Z.of_nat k) xi v) row 0)
      as [[Hn _] | (j & v & Hj & Hv & _)]; [congruence|].
    rewrite <- Hv in *.
    destruct (valid_cell_cases b p dx dy (0 + Z.of_nat k) (0 + Z.of_nat j) v Hwf)
      as [(Hr & Hv1 & Hblk) | [Hr _]]; [|congruence].
    split; [exact Hr|]. exists k, j. rewrite !Z.add_0_l in Hblk.
    split; [|exact Hblk]. unfold occupied, cell_at. rewrite Hk, Hj. congruence.
Qed.

Lemma valid_cell_reads (b : board_t) (p : Piece.t) (dx dy yi xi v r c : Z) :
  In (r, c) (fst (valid_cell b p dx dy yi xi v)) ->
  0 <= r < BOARD_HEIGHT /\ 0 <= c < BOARD_WIDTH.
Proof.
  unfold valid_cell.
  set (row := Piece.y p + yi + dy). set (col := Piece.x p + xi + dx).
  destruct (v =? 1); [|simpl; tauto].
  destruct ((col <? 0) || (col >=? BOARD_WIDTH) || (row >=? BOARD_HEIGHT)) eqn:Hout;
    [simpl; tauto|].
  rewrite !orb_false_iff, !Z.geb_leb, Z.ltb_ge, !Z.leb_gt in Hout.
  destruct (row >=? 0) eqn:Hr0; rewrite Z.geb_leb in Hr0; [|simpl; tauto].
  apply Z.leb_le in Hr0.
  destruct (board_get b row col); simpl; intros [H|[]];
    injection H as <- <-; lia.
Qed.

(** C1: on a board of [BOARD_HEIGHT] rows by [BOARD_WIDTH] columns, for
    every piece and every offset [(dx, dy)], [valid_move] returns [False]
    exactly when some occupied cell of the shape, moved to
    [(x + xi + dx, y + yi + dy)], has a column below 0 or at least
    [BOARD_WIDTH], or a row at least [BOARD_HEIGHT], or a row at least 0 on a
    non-empty board cell; it returns [True] in every other case, and a cell
    moved to a negative row inside the columns of the board never makes the
    move invalid. *)
Theorem valid_move_false_iff (g : Tetris) (dx dy : Z) :
  wf_board (board g) ->
  let b := board g in
  let p := current_piece g in
  (valid_move dx dy g = (Val false, g) <-> some_cell_blocked b p dx dy) /\
  (valid_move dx dy g = (Val true, g) <-> ~ some_cell_blocked b p dx dy) /\
  (forall row col, row < 0 -> 0 <= col < BOARD_WIDTH -> ~ blocked b row col).
Proof.
  intros Hwf b p. unfold valid_move, valid_move_on. fold b p.
  destruct (valid_move_traced_cases b p dx dy Hwf) as [[-> Hn] | [-> Hy]].
  - split; [|split].
    + split; [intros H; discriminate | tauto].
    + split; [intros _; exact Hn | reflexivity].
    + unfold blocked. pose proof BOARD_HEIGHT_eq as HH.
      intros row col Hr Hc [H|[H|[H|[H _]]]]; lia.
  - split; [|split].
    + split; [intros _; exact Hy | reflexivity].
    + split; [intros H; discriminate | tauto].
    + unfold blocked. pose proof BOARD_HEIGHT_eq as HH.
      intros row col Hr Hc [H|[H|[H|[H _]]]]; lia.
Qed.

(** C10: whatever the board, the piece and the offset, every board position
    [(row, col)] that [valid_move] reads satisfies [0 <= row < BOARD_HEIGHT]
    and [0 <= col < BOARD_WIDTH] (the bounds are tested before the lookup,
    and a negative row is skipped, not wrapped around); hence on a board of
    that size the call raises nothing and returns a boolean. *)
Theorem valid_move_reads_in_grid (b : board_t) (p : Piece.t) (dx dy : Z) :
  (forall row col,
      In (row, col) (valid_move_reads b p dx dy) ->
      0 <= row < BOARD_HEIGHT /\ 0 <= col < BOARD_WIDTH) /\
  (wf_board b -> exists r, valid_move_on b p dx dy = Val r).
Proof.
  split.
  - intros row col Hin. unfold valid_move_reads, valid_move_traced in Hin.
    apply for_enum_reads in Hin. destruct Hin as (k & cells & _ & Hin).
    apply for_enum_reads in Hin. destruct Hin as (j & v & _ & Hin).
    eapply valid_cell_reads; eauto.
  - intros Hwf. unfold valid_move_on.
    destruct (valid_move_traced_cases b p dx dy Hwf) as [[-> _] | [-> _]]; eauto.
Qed.

(** ** Facts about [clear_full_rows] *)

Lemma full_rows_count (b : board_t) :
  (length (filter full_row b) + length (filter has_empty_cell b) = length b)%nat.
Proof.
  induction b as [|row b IH]; simpl; [reflexivity|].
  unfold full_row at 1. destruct (has_empty_cell row); simpl; lia.
Qed.

Lemma no_full_row_filter (b : board_t) :
  length (filter full_row b) = 0%nat -> filter has_empty_cell b = b.
Proof.
  induction b as [|row b IH]; simpl; [reflexivity|].
  unfold full_row at 1. destruct (has_empty_cell row); simpl.
  - intros H. now rewrite IH.
  - discriminate.
Qed.

Lemma filter_not_full (b : board_t) :
  filter (fun row => negb (full_row row)) b = filter has_empty_cell b.
Proof.
  apply filter_ext. intros row. unfold full_row. apply negb_involutive.
Qed.

Lemma empty_row_width : Z.of_nat (length empty_row) = BOARD_WIDTH.
Proof. reflexivity. Qed.

Lemma clear_full_rows_wf_board (g : Tetris) :
  wf_board (board g) -> wf_board (board (snd (clear_full_rows g))).
Proof.
  intros [Hlen Hrows]. pose proof (full_rows_count (board g)) as Hcount.
  unfold clear_full_rows, bind, get, modify.
  cbn [snd board set_board set_score]. split.
  - rewrite length_app, repeat_length. lia.
  - apply Forall_app. split.
    + apply Forall_forall. intros row Hin. apply repeat_spec in Hin.
      subst row. apply empty_row_width.
    + rewrite Forall_forall in *. intros row Hin. apply filter_In in Hin.
      apply Hrows, Hin.
Qed.

(** C3: on a board of [BOARD_HEIGHT] rows of which exactly [k] are full (no
    empty cell), [clear_full_rows] returns with the board made of [k] empty
    rows followed by the rows that were not full, in their order; the board
    still has [BOARD_HEIGHT] rows, its rows keep width [BOARD_WIDTH] when
    they had it, the score has grown by exactly [100 * k], nothing else
    changes, [k] is at most [BOARD_HEIGHT], and for [k = 0] board and score
    are unchanged. *)
Theorem clear_full_rows_spec (g : Tetris) (k : nat) :
  Z.of_nat (length (board g)) = BOARD_HEIGHT ->
  k = length (filter full_row (board g)) ->
  exists g',
    clear_full_rows g = (Val tt, g') /\
    board g' = repeat empty_row k
                 ++ filter (fun row => negb (full_row row)) (board g) /\
    score g' = score g + 100 * Z.of_nat k /\
    Z.of_nat (length (board g')) = BOARD_HEIGHT /\
    (wf_board (board g) -> wf_board (board g')) /\
    current_piece g' = current_piece g /\
    running g' = running g /\
    drop_speed g' = drop_speed g /\
    Z.of_nat k <= BOARD_HEIGHT /\
    (k = 0%nat -> board g' = board g /\ score g' = score g).
Proof.
  intros Hlen Hk.
  pose proof (full_rows_count (board g)) as Hcount.
  assert (Hcleared :
    BOARD_HEIGHT - Z.of_nat (length (filter has_empty_cell (board g))) = Z.of_nat k)
    by lia.
  unfold clear_full_rows, bind, get, modify. cbv zeta.
  eexists. split; [reflexivity|].
  cbn [board score current_piece running drop_speed set_board set_score].
  rewrite Hcleared, Nat2Z.id.
  rewrite filter_not_full.
  split; [reflexivity|]. split; [lia|]. split.
  { rewrite length_app, repeat_length. lia. }
  split.
  { intros Hwf. apply clear_full_rows_wf_board in Hwf.
    unfold clear_full_rows, bind, get, modify in Hwf.
    cbn [snd board set_board set_score] in Hwf.
    now rewrite Hcleared, Nat2Z.id in Hwf. }
  repeat (split; [reflexivity|]). split; [lia|].
  intros ->. split; [|lia].
  apply no_full_row_filter. now rewrite <- Hk.
Qed.

(** ** Facts about [zip] and [rotate] *)

Section Zip.

Context {A : Type}.

Lemma heads_tails_rect (n : nat) (rest : list (list A)) :
  Forall (fun row => length row = S n) rest ->
  exists hs ts,
    heads_tails rest = Some (hs, ts) /\
    map Some hs = column 0 rest /\
    (forall i, column i ts = column (S i) rest) /\
    Forall (fun row => length row = n) ts.
Proof.
  induction 1 as [|row rest Hrow _ IH]; simpl.
  - exists [], []. repeat split; auto.
  - destruct IH as (hs & ts & -> & H0 & HS & Hts).
    destruct row as [|a row]; [discriminate|].
    exists (a :: hs), (row :: ts). simpl. repeat split.
    + now rewrite H0.
    + intros i. now rewrite HS.
    + constructor; [now injection Hrow | exact Hts].
Qed.

Lemma zip_from_columns (first : list A) :
  forall rest,
    Forall (fun row => length row = length first) rest ->
    length (zip_from first rest) = length first /\
    forall i, (i < length first)%nat ->
      exists col, nth_error (zip_from first rest) i = Some col /\
                  map Some col = column i (first :: rest).
Proof.
  induction first as [|a first IH]; intros rest Hrest; simpl.
  - split; [reflexivity|]. intros i Hi. inversion Hi.
  - destruct (heads_tails_rect (length first) rest Hrest)
      as (hs & ts & -> & H0 & HS & Hts).
    destruct (IH ts Hts) as [Hlen Hcols]. simpl. split; [now rewrite Hlen|].
    intros [|i] Hi; simpl.
    + exists (a :: hs). split; [reflexivity|]. simpl. now rewrite H0.
    + destruct (Hcols i) as (col & Hcol & Hmap); [lia|].
      exists col. split; [exact Hcol|]. rewrite Hmap. simpl.
      now rewrite HS.
Qed.

Lemma column_nth (i j : nat) (m : list (list A)) (col : list A) :
  map Some col = column i m ->
  length col = length m /\
  (forall row, nth_error m j = Some row -> nth_error col j = nth_error row i).
Proof.
  intros Hmap. split.
  - rewrite <- (length_map Some col), Hmap. apply length_map.
  - intros row Hrow.
    assert (H : nth_error (map Some col) j = nth_error (column i m) j)
      by now rewrite Hmap.
    unfold column in H. rewrite !nth_error_map, Hrow in H. simpl in H.
    destruct (nth_error col j) as [v|] eqn:Ev; simpl in H.
    + now injection H.
    + discriminate.
Qed.

End Zip.

Lemma rectangular_rev (m : matrix) :
  rectangular m -> Forall (fun row => length row = cols m) (rev m).
Proof. apply Forall_rev. Qed.

Lemma rectangular_cols (m : matrix) (row : list Z) :
  rectangular m -> In row m -> length row = cols m.
Proof. unfold rectangular. rewrite Forall_forall. auto. Qed.

(** C7: [rotate] changes nothing but the shape, and it is a structural
    transform.  On a rectangular matrix of [r] rows and [c] columns ([c] the
    length of the first row) the new shape has [c] rows, all of length [r],
    and its cell [(i, j)] is cell [(r - 1 - j, i)] of the old shape: the
    quarter turn clockwise.  Every shape of [SHAPES] is rectangular and is
    the same matrix again after four rotations. *)
Theorem rotate_quarter_turn :
  (forall p,
      Piece.shape (Piece.rotate p) = Piece.rotate_shape (Piece.shape p) /\
      Piece.color (Piece.rotate p) = Piece.color p /\
      Piece.x (Piece.rotate p) = Piece.x p /\
      Piece.y (Piece.rotate p) = Piece.y p /\
      Piece.pixel_y (Piece.rotate p) = Piece.pixel_y p) /\
  (forall m : matrix,
      rectangular m ->
      let m' := Piece.rotate_shape m in
      rows m' = cols m /\
      Forall (fun row => length row = rows m) m' /\
      forall i j, (i < cols m)%nat -> (j < rows m)%nat ->
        cell_at m' i j = cell_at m (rows m - 1 - j) i) /\
  (forall s, In s SHAPES -> rectangular s /\ rotate_times 4 s = s).
Proof.
  split; [|split].
  - intros p. repeat split.
  - intros m Hrect m'. subst m'. unfold Piece.rotate_shape, rows.
    destruct (rev m) as [|first rest] eqn:Hrev.
    + assert (m = []) as -> by (rewrite <- (rev_involutive m), Hrev; reflexivity).
      simpl. repeat split; [constructor | intros i j Hi; inversion Hi].
    + assert (Hfirst : length first = cols m).
      { apply rectangular_cols; [exact Hrect|].
        apply in_rev. rewrite Hrev. now left. }
      assert (Hrest : Forall (fun row => length row = length first) rest).
      { pose proof (rectangular_rev m Hrect) as H. rewrite Hrev in H.
        inversion H; subst. rewrite Hfirst. assumption. }
      assert (Hlen : length m = S (length rest)).
      { rewrite <- (length_rev m), Hrev. reflexivity. }
      destruct (zip_from_columns first rest Hrest) as [Hrows Hcols].
      simpl zip_star. split; [congruence|]. split.
      * apply Forall_forall. intros col Hin.
        apply In_nth_error in Hin. destruct Hin as [i Hi].
        assert (Hlt : (i < length first)%nat).
        { rewrite <- Hrows. apply nth_error_Some. congruence. }
        destruct (Hcols i Hlt) as (col' & Hcol' & Hmap).
        assert (col' = col) as -> by congruence.
        destruct (column_nth i 0 _ _ Hmap) as [Hl _]. simpl in Hl. lia.
      * intros i j Hi Hj. rewrite <- Hfirst in Hi.
        destruct (Hcols i Hi) as (col & Hcol & Hmap).
        unfold cell_at at 1. rewrite Hcol.
        assert (Hj' : nth_error (rev m) j = nth_error m (length m - 1 - j)).
        { rewrite nth_error_rev.
          destruct (Nat.ltb_spec j (length m)) as [_|Hge]; [|lia].
          f_equal. lia. }
        destruct (nth_error (first :: rest) j) as [row|] eqn:Hrow.
        -- destruct (column_nth i j _ _ Hmap) as [_ Hnth].
           rewrite (Hnth row Hrow). unfold cell_at.
           rewrite <- Hj', Hrev, Hrow. reflexivity.
        -- apply nth_error_None in Hrow. simpl in Hrow. lia.
  - intros s Hs. simpl in Hs.
    repeat (destruct Hs as [<-|Hs];
            [split; [repeat constructor | reflexivity]|]).
    contradiction.
Qed.

Lemma rotate_quarter_turn_witness :
  rectangular [[0; 1; 0]; [1; 1; 1]] /\
  Piece.rotate_shape [[0; 1; 0]; [1; 1; 1]] = [[1; 0]; [1; 1]; [1; 0]] /\
  cell_at (Piece.rotate_shape [[0; 1; 0]; [1; 1; 1]]) 2 1
  = cell_at [[0; 1; 0]; [1; 1; 1]] (2 - 1 - 1) 2.
Proof.
  assert (Hrect : rectangular [[0; 1; 0]; [1; 1; 1]]) by (repeat constructor).
  split; [exact Hrect|]. split; [reflexivity|].
  destruct rotate_quarter_turn as [_ [Hturn _]].
  destruct (Hturn _ Hrect) as [_ [_ Hcell]].
  apply (Hcell 2%nat 1%nat); unfold cols, rows; simpl; lia.
Defined.

(** ** The dimensions of the board never change *)

Lemma replace_nth_length {A : Type} (l : list A) :
  forall k v, length (replace_nth l k v) = length l.
Proof.
  induction l as [|a l IH]; intros [|k] v; simpl; auto.
Qed.

Lemma replace_nth_Forall {A : Type} (Q : A -> Prop) (l : list A) :
  forall k v, Forall Q l -> Q v -> Forall Q (replace_nth l k v).
Proof.
  induction l as [|a l IH]; intros [|k] v Hl Hv; simpl; auto;
    inversion Hl; subst; constructor; auto.
Qed.

Lemma py_setitem_length {A : Type} (l l' : list A) (i : Z) (v : A) :
  py_setitem l i v = Some l' -> length l' = length l.
Proof.
  unfold py_setitem.
  destruct (_ && _); [|destruct (_ && _); [|discriminate]];
    intros H; injection H as <-; apply replace_nth_length.
Qed.

Lemma py_setitem_Forall {A : Type} (Q : A -> Prop) (l l' : list A) (i : Z) (v : A) :
  py_setitem l i v = Some l' -> Forall Q l -> Q v -> Forall Q l'.
Proof.
  unfold py_setitem.
  destruct (_ && _); [|destruct (_ && _); [|discriminate]];
    intros H; injection H as <-; apply replace_nth_Forall.
Qed.

Lemma py_index_In {A : Type} (l : list A) (i : Z) (a : A) :
  py_index l i = Some a -> In a l.
Proof.
  unfold py_index.
  destruct (_ && _); [|destruct (_ && _); [|discriminate]];
    apply nth_error_In.
Qed.

Lemma setitem_wf_board (b b' : board_t) (r c : Z) (v : cell)
  (row row' : list cell) :
  py_index b r = Some row ->
  py_setitem row c v = Some row' ->
  py_setitem b r row' = Some b' ->
  wf_board b -> wf_board b'.
Proof.
  intros Hrow Hset Hb' [Hlen Hrows]. split.
  - rewrite (py_setitem_length _ _ _ _ Hb'). exact Hlen.
  - apply (py_setitem_Forall _ _ _ _ _ Hb' Hrows).
    rewrite (py_setitem_length _ _ _ _ Hset).
    rewrite Forall_forall in Hrows. apply Hrows.
    eapply py_index_In; eauto.
Qed.

(** ** Reasoning about method calls *)

Section Keeps.

Variable P : Tetris -> Prop.

Lemma keeps_ret {A : Type} (a : A) : keeps P (ret a).
Proof. intros g H. exact H. Qed.

Lemma keeps_get : keeps P get.
Proof. intros g H. exact H. Qed.

Lemma keeps_bind {A B : Type} (m : M A) (k : A -> M B) :
  keeps P m -> (forall a, keeps P (k a)) -> keeps P (bind m k).
Proof.
  intros Hm Hk g H. unfold bind. specialize (Hm g H).
  destruct (m g) as [[a|] g1]; simpl in *; [now apply Hk | exact Hm].
Qed.

Lemma keeps_modify (f : Tetris -> Tetris) :
  (forall g, P g -> P (f g)) -> keeps P (modify f).
Proof. intros Hf g H. simpl. now apply Hf. Qed.

Lemma keeps_valid_move (dx dy : Z) : keeps P (valid_move dx dy).
Proof. intros g H. exact H. Qed.

Lemma keeps_redraw : keeps P redraw.
Proof. intros g H. exact H. Qed.

Lemma keeps_andM (a : bool) (m : M bool) : keeps P m -> keeps P (andM a m).
Proof. intros Hm. destruct a; simpl; [exact Hm | apply keeps_ret]. Qed.

Lemma keeps_for_enumM {A : Type} (body : Z -> A -> M unit) (l : list A) :
  (forall i a, keeps P (body i a)) -> forall i, keeps P (for_enumM body i l).
Proof.
  intros Hbody. induction l as [|a l IH]; intros i; simpl.
  - apply keeps_ret.
  - apply keeps_bind; [apply Hbody | intros _; apply IH].
Qed.

(** [P] survives an assignment to the board that keeps its dimensions. *)
Hypothesis P_set_board :
  forall g b, P g -> (wf_board (board g) -> wf_board b) -> P (set_board g b).

Lemma keeps_board_setitem (r c : Z) (v : cell) : keeps P (board_setitem r c v).
Proof.
  intros g H. unfold board_setitem.
  destruct (py_index (board g) r) as [row|] eqn:Hrow; [|exact H].
  destruct (py_setitem row c v) as [row'|] eqn:Hset; [|exact H].
  destruct (py_setitem (board g) r row') as [b'|] eqn:Hb'; [|exact H].
  simpl. apply P_set_board; [exact H|].
  intros Hwf. eapply setitem_wf_board; eauto.
Qed.

Lemma keeps_lock_cells : keeps P lock_cells.
Proof.
  unfold lock_cells. apply keeps_bind; [apply keeps_get|]. intros g0.
  apply keeps_for_enumM. intros yi row.
  apply keeps_for_enumM. intros xi v.
  destruct (v =? 1); [|apply keeps_ret].
  apply keeps_bind; [apply keeps_get|]. intros g1.
  apply keeps_board_setitem.
Qed.

End Keeps.

Lemma lock_cells_same_but_board (g : Tetris) :
  same_but_board g (snd (lock_cells g)).
Proof.
  apply (keeps_lock_cells (same_but_board g)).
  - intros g1 b H _. exact H.
  - repeat split.
Qed.

Lemma clear_full_rows_returns (g : Tetris) :
  fst (clear_full_rows g) = Val tt /\
  current_piece (snd (clear_full_rows g)) = current_piece g /\
  running (snd (clear_full_rows g)) = running g /\
  drop_speed (snd (clear_full_rows g)) = drop_speed g.
Proof. repeat split. Qed.

Lemma new_piece_y (rnd : nat * nat) : Piece.y (new_piece rnd) = 0.
Proof. reflexivity. Qed.

Lemma bind_val {A B : Type} (m : M A) (k : A -> M B) (g g1 : Tetris) (a : A) :
  m g = (Val a, g1) -> bind m k g = k a g1.
Proof. intros H. unfold bind. now rewrite H. Qed.

Lemma bind_exc {A B : Type} (m : M A) (k : A -> M B) (g g1 : Tetris) :
  m g = (IndexError, g1) -> bind m k g = (IndexError, g1).
Proof. intros H. unfold bind. now rewrite H. Qed.

Lemma clear_full_rows_val (g : Tetris) :
  clear_full_rows g = (Val tt, snd (clear_full_rows g)).
Proof. reflexivity. Qed.

(** Lines 116-120 of [lock_piece], on the state [g2] left by
    [clear_full_rows]. *)
Lemma spawn_and_check (rnd : nat * nat) (g2 : Tetris) :
  let g3 := set_current_piece g2 (new_piece rnd) in
  (modify (fun g => set_current_piece g (new_piece rnd)) ;;
   ok <- valid_move 0 1 ;;
   at_top <- andM (negb ok)
               (g <- get ;; ret (Piece.y (current_piece g) =? 0)) ;;
   if at_top then game_over else ret tt) g2
  = match valid_move_on (board g2) (new_piece rnd) 0 1 with
    | Val true => (Val tt, g3)
    | Val false => (Val tt, set_running g3 false)
    | IndexError => (IndexError, g3)
    end.
Proof.
  intros g3. unfold bind at 1. unfold modify. fold g3.
  unfold bind at 1. unfold valid_move.
  change (board g3) with (board g2).
  change (current_piece g3) with (new_piece rnd).
  destruct (valid_move_on (board g2) (new_piece rnd) 0 1) as [[|]|];
    reflexivity.
Qed.

(** What [lock_piece] does after the cells are written. *)
Lemma lock_piece_cases (rnd : nat * nat) (g : Tetris) :
  let g1 := snd (lock_cells g) in
  let g3 := set_current_piece (snd (clear_full_rows g1)) (new_piece rnd) in
  (fst (lock_cells g) = IndexError /\ lock_piece rnd g = (IndexError, g1)) \/
  (fst (lock_cells g) = Val tt /\
   ((valid_move_on (board g3) (new_piece rnd) 0 1 = Val true /\
     lock_piece rnd g = (Val tt, g3)) \/
    (valid_move_on (board g3) (new_piece rnd) 0 1 = Val false /\
     lock_piece rnd g = (Val tt, set_running g3 false)) \/
    (valid_move_on (board g3) (new_piece rnd) 0 1 = IndexError /\
     lock_piece rnd g = (IndexError, g3)))).
Proof.
  intros g1 g3. unfold lock_piece.
  destruct (lock_cells g) as [[[]|] g1'] eqn:Hcells; subst g1; simpl fst; simpl snd in *.
  - right. split; [reflexivity|].
    rewrite (bind_val _ _ _ _ _ Hcells).
    rewrite (bind_val _ _ _ _ _ (clear_full_rows_val g1')).
    rewrite spawn_and_check. fold g3.
    change (board (snd (clear_full_rows g1'))) with (board g3).
    destruct (valid_move_on (board g3) (new_piece rnd) 0 1) as [[|]|]; auto.
  - left. split; [reflexivity|]. now rewrite (bind_exc _ _ _ _ Hcells).
Qed.

Section KeepsMore.

Variable P : Tetris -> Prop.
Hypothesis P_set_board :
  forall g b, P g -> (wf_board (board g) -> wf_board b) -> P (set_board g b).
Hypothesis P_set_score : forall g s, P g -> P (set_score g s).
Hypothesis P_set_piece : forall g p, P g -> P (set_current_piece g p).
Hypothesis P_set_speed : forall g d, P g -> P (set_drop_speed g d).

Lemma keeps_clear_full_rows : keeps P clear_full_rows.
Proof.
  intros g H.
  change (snd (clear_full_rows g)) with
    (set_board (set_score g (score (snd (clear_full_rows g))))
       (board (snd (clear_full_rows g)))).
  apply P_set_board; [apply P_set_score, H|].
  apply clear_full_rows_wf_board.
Qed.

Lemma keeps_modify_piece (f : Piece.t -> Piece.t) : keeps P (modify_piece f).
Proof. apply keeps_modify. intros g H. now apply P_set_piece. Qed.

Lemma keeps_gravity_step : keeps P gravity_step.
Proof.
  unfold gravity_step.
  apply keeps_bind; [apply keeps_get|]. intros g0.
  apply keeps_bind; [apply keeps_modify_piece|]. intros _.
  apply keeps_bind; [apply keeps_get|]. intros g1.
  destruct (_ >=? _); [|apply keeps_ret].
  apply keeps_bind; [apply keeps_modify_piece|]. intros _.
  apply keeps_bind; [apply keeps_modify_piece|]. intros _.
  apply keeps_ret.
Qed.

Lemma keeps_handle_key (keysym : string) : keeps P (handle_key keysym).
Proof.
  unfold handle_key.
  apply keeps_bind; [apply keeps_andM, keeps_valid_move|]. intros left.
  destruct left; [apply keeps_modify_piece|].
  apply keeps_bind; [apply keeps_andM, keeps_valid_move|]. intros right.
  destruct right; [apply keeps_modify_piece|].
  destruct (_ =? _)%string.
  { apply keeps_modify. intros g H. now apply P_set_speed. }
  destruct (_ =? _)%string; [|apply keeps_ret].
  apply keeps_bind; [apply keeps_get|]. intros g0.
  apply keeps_bind; [apply keeps_modify_piece|]. intros _.
  apply keeps_bind; [apply keeps_valid_move|]. intros ok.
  destruct (negb ok); [apply keeps_modify_piece | apply keeps_ret].
Qed.

(** [game_over] is the one place where [running] is assigned. *)
Hypothesis P_game_over : forall g, P g -> P (set_running g false).

Lemma keeps_game_over : keeps P game_over.
Proof. apply keeps_modify. exact P_game_over. Qed.

Lemma keeps_lock_piece (rnd : nat * nat) : keeps P (lock_piece rnd).
Proof.
  unfold lock_piece.
  apply keeps_bind; [now apply keeps_lock_cells|]. intros _.
  apply keeps_bind; [apply keeps_clear_full_rows|]. intros _.
  apply keeps_bind.
  { apply keeps_modify. intros g H. now apply P_set_piece. }
  intros _.
  apply keeps_bind; [apply keeps_valid_move|]. intros ok.
  apply keeps_bind.
  { apply keeps_andM, keeps_bind; [apply keeps_get | intros g; apply keeps_ret]. }
  intros at_top. destruct at_top; [apply keeps_game_over | apply keeps_ret].
Qed.

Lemma keeps_check_collision (rnd : nat * nat) : keeps P (check_collision rnd).
Proof.
  unfold check_collision.
  apply keeps_bind; [apply keeps_valid_move|]. intros ok.
  destruct (negb ok); [apply keeps_lock_piece | apply keeps_ret].
Qed.

Lemma keeps_update (rnd : nat * nat) : keeps P (update rnd).
Proof.
  unfold update.
  apply keeps_bind; [apply keeps_gravity_step|]. intros crossed.
  apply keeps_bind.
  { destruct crossed; [apply keeps_check_collision | apply keeps_ret]. }
  intros _.
  apply keeps_bind; [apply keeps_redraw|]. intros _.
  apply keeps_bind.
  { apply keeps_modify. intros g H. now apply P_set_speed. }
  intros _.
  apply keeps_bind; [apply keeps_get | intros g; apply keeps_ret].
Qed.

End KeepsMore.

(** ** Facts about [update] *)

(** When [update] returns, its value is the final [running] and the drop
    speed is back to [FALL_SPEED]. *)
Lemma update_returns (rnd : nat * nat) (g g' : Tetris) (scheduled : bool) :
  update rnd g = (Val scheduled, g') ->
  scheduled = running g' /\ drop_speed g' = FALL_SPEED.
Proof.
  unfold update. unfold bind at 1.
  destruct (gravity_step g) as [[crossed|] g1]; [|discriminate].
  unfold bind at 1.
  destruct ((if crossed then check_collision rnd else ret tt) g1)
    as [[u|] g2]; [|discriminate].
  unfold bind at 1. unfold redraw.
  destruct (snd (draw_board g2)) as [u'|]; [|discriminate].
  unfold bind, modify, get, ret. intros H. injection H as <- <-.
  split; reflexivity.
Qed.

(** [handle_key] never assigns [running]. *)
Lemma handle_key_running (keysym : string) (g : Tetris) :
  running (snd (handle_key keysym g)) = running g.
Proof.
  apply (keeps_handle_key (fun g' => running g' = running g)); auto.
Qed.

(** The board has its dimensions in every state the event loop reaches. *)
Lemma wf_board_invariant (rnd : nat * nat) (es : list event) :
  wf_board (board (game (mainloop rnd es))).
Proof.
  assert (Hstep : forall w e,
    wf_board (board (game w)) -> wf_board (board (game (dispatch w e)))).
  { intros w e Hw. destruct e as [keysym|rnd']; simpl.
    - apply (keeps_handle_key (fun g => wf_board (board g))); auto.
    - destruct (pending w); [|exact Hw].
      assert (Hupd : wf_board (board (snd (update rnd' (game w))))).
      { apply (keeps_update (fun g => wf_board (board g))); auto. }
      destruct (update rnd' (game w)) as [[scheduled|] g']; exact Hupd. }
  unfold mainloop.
  set (w0 := dispatch _ (Tick rnd)).
  assert (H0 : wf_board (board (game w0)))
    by (apply Hstep; exact wf_empty_board).
  clearbody w0. revert w0 H0.
  induction es as [|e es IH]; intros w0 H0; simpl; [exact H0|].
  apply IH, Hstep, H0.
Qed.

Lemma dispatch_stopped (w : world) (e : event) :
  stopped w -> stopped (dispatch w e).
Proof.
  unfold stopped. intros Hw. destruct e as [keysym|rnd]; simpl.
  - rewrite handle_key_running. exact Hw.
  - destruct (pending w) eqn:Hp; [|rewrite Hp; auto].
    destruct (update rnd (game w)) as [[scheduled|] g'] eqn:Hu; simpl; [|auto].
    apply update_returns in Hu. destruct Hu as [-> _]. auto.
Qed.

Lemma mainloop_stopped (rnd : nat * nat) (es : list event) :
  stopped (mainloop rnd es).
Proof.
  unfold mainloop.
  set (w0 := dispatch _ (Tick rnd)).
  assert (H0 : stopped w0) by (apply dispatch_stopped; intros H; discriminate).
  clearbody w0. revert w0 H0.
  induction es as [|e es IH]; intros w0 H0; simpl; [exact H0|].
  apply IH, dispatch_stopped, H0.
Qed.

Lemma dispatch_game_over (w : world) (e : event) :
  running (game w) = false -> pending w = false ->
  running (game (dispatch w e)) = false /\ pending (dispatch w e) = false.
Proof.
  intros Hr Hp. destruct e as [keysym|rnd]; simpl.
  - rewrite handle_key_running. auto.
  - rewrite Hp. auto.
Qed.

(** C5: [running] starts [True]; no method ([update], [handle_key],
    [lock_piece], [check_collision], [clear_full_rows], [game_over];
    [new_piece] touches no attribute) ever sets it back to [True], whether
    the method returns or raises; an [update] that runs with [running]
    false schedules no tick; and in the event loop, once [running] is
    false, it stays false and no tick is pending, whatever events follow. *)
Theorem running_is_one_way :
  (forall rnd, running (init rnd) = true) /\
  (forall g, running g = false ->
     (forall rnd, running (snd (update rnd g)) = false /\
                  fst (update rnd g) <> Val true) /\
     (forall keysym, running (snd (handle_key keysym g)) = false) /\
     (forall rnd, running (snd (lock_piece rnd g)) = false) /\
     (forall rnd, running (snd (check_collision rnd g)) = false) /\
     running (snd (clear_full_rows g)) = false /\
     running (snd (game_over g)) = false) /\
  (forall rnd es es',
     let w := mainloop rnd es in
     running (game w) = false ->
     let w' := fold_left dispatch es' w in
     running (game w') = false /\ pending w' = false).
Proof.
  split; [reflexivity|]. split.
  - intros g Hg.
    assert (Hupd : forall rnd, running (snd (update rnd g)) = false).
    { intros rnd.
      apply (keeps_update (fun g' => running g' = false)); auto. }
    split; [|split; [|split; [|split; [|split]]]].
    + intros rnd. split; [apply Hupd|].
      specialize (Hupd rnd).
      destruct (update rnd g) as [[scheduled|] g'] eqn:Hu; [|discriminate].
      apply update_returns in Hu. destruct Hu as [-> _]. simpl in *.
      rewrite Hupd. discriminate.
    + intros keysym. now rewrite handle_key_running.
    + intros rnd.
      apply (keeps_lock_piece (fun g' => running g' = false)); auto.
    + intros rnd.
      apply (keeps_check_collision (fun g' => running g' = false)); auto.
    + exact Hg.
    + reflexivity.
  - intros rnd es es' w Hr.
    assert (Hp : pending w = false) by (apply mainloop_stopped, Hr).
    clearbody w. revert w Hr Hp.
    induction es' as [|e es' IH]; intros w Hr Hp; simpl; [auto|].
    destruct (dispatch_game_over w e Hr Hp) as [Hr' Hp']. now apply IH.
Qed.

(** ** Facts about [handle_key] *)

(** The branches of [handle_key], one key at a time. *)
Lemma handle_key_Left (g : Tetris) :
  handle_key "Left" g =
  match valid_move_on (board g) (current_piece g) (-1) 0 with
  | Val true =>
      (Val tt, set_current_piece g
                 (set_x (current_piece g) (Piece.x (current_piece g) - 1)))
  | Val false => (Val tt, g)
  | IndexError => (IndexError, g)
  end.
Proof.
  unfold handle_key, bind, andM, valid_move.
  destruct (valid_move_on (board g) (current_piece g) (-1) 0) as [[|]|] eqn:E;
    cbn; rewrite ?E; reflexivity.
Qed.

Lemma handle_key_Right (g : Tetris) :
  handle_key "Right" g =
  match valid_move_on (board g) (current_piece g) 1 0 with
  | Val true =>
      (Val tt, set_current_piece g
                 (set_x (current_piece g) (Piece.x (current_piece g) + 1)))
  | Val false => (Val tt, g)
  | IndexError => (IndexError, g)
  end.
Proof.
  unfold handle_key, bind, andM, valid_move.
  destruct (valid_move_on (board g) (current_piece g) 1 0) as [[|]|] eqn:E;
    cbn; rewrite ?E; reflexivity.
Qed.

Lemma handle_key_Down (g : Tetris) :
  handle_key "Down" g = (Val tt, set_drop_speed g FAST_DROP_SPEED).
Proof. reflexivity. Qed.

Lemma handle_key_Up (g : Tetris) :
  let rotated := Piece.rotate (current_piece g) in
  handle_key "Up" g =
  match valid_move_on (board g) rotated 0 0 with
  | Val true => (Val tt, set_current_piece g rotated)
  | Val false =>
      (Val tt, set_current_piece g
                 (set_shape rotated (Piece.shape (current_piece g))))
  | IndexError => (IndexError, set_current_piece g rotated)
  end.
Proof.
  intros rotated. unfold handle_key, bind, andM, valid_move.
  cbn. fold rotated.
  destruct (valid_move_on (board g) rotated 0 0) as [[|]|]; reflexivity.
Qed.

Lemma handle_key_other (keysym : string) (g : Tetris) :
  keysym <> "Left"%string -> keysym <> "Right"%string ->
  keysym <> "Down"%string -> keysym <> "Up"%string ->
  handle_key keysym g = (Val tt, g).
Proof.
  intros HL HR HD HU. unfold handle_key, bind, andM.
  apply String.eqb_neq in HL, HR, HD, HU. rewrite HL, HR, HD, HU.
  reflexivity.
Qed.

(** C6: a rejected key leaves the whole object as it was.  When [Left]
    arrives and [valid_move(-1, 0)] is false, or [Right] arrives and
    [valid_move(1, 0)] is false, [handle_key] returns with the piece ([x],
    [y], [pixel_y], shape, colour), the board, the score and every other
    attribute unchanged; when [Up] arrives and [valid_move(0, 0)] is false
    for the rotated shape, the shape is put back to the value it had before
    the rotation and, again, nothing at all has changed. *)
Theorem rejected_key_is_noop (g : Tetris) :
  (fst (valid_move (-1) 0 g) = Val false ->
   handle_key "Left" g = (Val tt, g)) /\
  (fst (valid_move 1 0 g) = Val false ->
   handle_key "Right" g = (Val tt, g)) /\
  (fst (valid_move 0 0 (set_current_piece g (Piece.rotate (current_piece g))))
   = Val false ->
   handle_key "Up" g = (Val tt, g)).
Proof.
  unfold valid_move. simpl fst. split; [|split]; intros H.
  - now rewrite handle_key_Left, H.
  - now rewrite handle_key_Right, H.
  - rewrite handle_key_Up. cbn [board current_piece set_current_piece] in H.
    rewrite H. destruct g as [b [sh c x y py] sc r d]. reflexivity.
Qed.

(** Moving the anchor is the same as asking for the offset. *)
Lemma for_enum_ext {A : Type} (body1 body2 : Z -> A -> traced) (l : list A) :
  (forall i a, body1 i a = body2 i a) ->
  forall i, for_enum body1 i l = for_enum body2 i l.
Proof.
  intros Hext. induction l as [|a l IH]; intros i; simpl; [reflexivity|].
  now rewrite Hext, IH.
Qed.

Lemma valid_move_on_shift (b : board_t) (p : Piece.t) (dx : Z) :
  valid_move_on b (set_x p (Piece.x p + dx)) 0 0 = valid_move_on b p dx 0.
Proof.
  unfold valid_move_on, valid_move_traced. cbn [Piece.shape set_x].
  assert (E : forall i l,
    for_enum (fun yi row => for_enum
      (fun xi v => valid_cell b (set_x p (Piece.x p + dx)) 0 0 yi xi v) 0 row) i l
    = for_enum (fun yi row => for_enum
      (fun xi v => valid_cell b p dx 0 yi xi v) 0 row) i l);
    [|now rewrite E].
  intros i l. apply for_enum_ext. intros yi row.
  apply for_enum_ext. intros xi v. unfold valid_cell.
  cbn [Piece.x Piece.y set_x].
  replace (Piece.x p + dx + xi + 0) with (Piece.x p + xi + dx) by lia.
  reflexivity.
Qed.

(** The part of C2 that holds: when [handle_key] returns, the board is
    untouched and the piece is either exactly the old one or one for which
    [valid_move(0, 0)] holds. *)
Lemma handle_key_commits_valid (keysym : string) (g g' : Tetris) :
  handle_key keysym g = (Val tt, g') ->
  board g' = board g /\
  (current_piece g' = current_piece g \/
   valid_move_on (board g') (current_piece g') 0 0 = Val true).
Proof.
  destruct (String.eqb_spec keysym "Left") as [->|HL].
  { rewrite handle_key_Left.
    destruct (valid_move_on _ _ (-1) 0) as [[|]|] eqn:E; intros H;
      inversion H; subst; clear H; split; auto.
    right. cbn [board current_piece set_current_piece].
    change (Piece.x (current_piece g) - 1) with (Piece.x (current_piece g) + -1).
    now rewrite valid_move_on_shift. }
  destruct (String.eqb_spec keysym "Right") as [->|HR].
  { rewrite handle_key_Right.
    destruct (valid_move_on _ _ 1 0) as [[|]|] eqn:E; intros H;
      inversion H; subst; clear H; split; auto.
    right. cbn [board current_piece set_current_piece].
    now rewrite valid_move_on_shift. }
  destruct (String.eqb_spec keysym "Down") as [->|HD].
  { rewrite handle_key_Down. intros H. inversion H. auto. }
  destruct (String.eqb_spec keysym "Up") as [->|HU].
  { rewrite handle_key_Up.
    destruct (valid_move_on _ _ 0 0) as [[|]|] eqn:E; intros H;
      inversion H; subst; clear H; split; auto.
    left. destruct g as [b [sh c x y py] sc r d]. reflexivity. }
  rewrite handle_key_other by assumption. intros H. inversion H. auto.
Qed.

(** ** Facts about spawning and the end of the game *)

(** C8: every piece made by [new_piece] has a shape of [SHAPES], a colour
    of [SHAPE_COLORS], [x = BOARD_WIDTH // 2 - len(shape[0]) // 2] with
    integer division, [y = 0] and [pixel_y = 0]; for the two-wide O shape on
    the ten-wide board [x] is 4.  The constructor of the game and every
    [lock_piece] that returns install exactly such a piece. *)
Theorem new_piece_spawn_position :
  (forall rnd,
      let p := new_piece rnd in
      In (Piece.shape p) SHAPES /\
      In (Piece.color p) SHAPE_COLORS /\
      Piece.x p = BOARD_WIDTH / 2 - Z.of_nat (length (hd [] (Piece.shape p))) / 2 /\
      Piece.y p = 0 /\
      Piece.pixel_y p = 0) /\
  (In [[1; 1]; [1; 1]] SHAPES /\ BOARD_WIDTH = 10 /\
   forall c, Piece.x (Piece.init [[1; 1]; [1; 1]] c) = 4) /\
  (forall rnd, current_piece (init rnd) = new_piece rnd) /\
  (forall rnd g g',
      lock_piece rnd g = (Val tt, g') -> current_piece g' = new_piece rnd).
Proof.
  split; [|split; [|split]].
  - intros rnd p. subst p. unfold new_piece, random_choice.
    cbn [Piece.shape Piece.color Piece.x Piece.y Piece.pixel_y Piece.init].
    repeat split.
    + apply nth_In. apply Nat.mod_upper_bound. discriminate.
    + apply nth_In. apply Nat.mod_upper_bound. discriminate.
  - split; [right; left; reflexivity|]. split; reflexivity.
  - reflexivity.
  - intros rnd g g' H.
    pose proof (lock_piece_cases rnd g) as Hcases. cbv zeta in Hcases.
    set (g3 := set_current_piece
                 (snd (clear_full_rows (snd (lock_cells g)))) (new_piece rnd))
      in Hcases.
    assert (Hp3 : current_piece g3 = new_piece rnd) by reflexivity.
    clearbody g3.
    destruct Hcases as [[_ E] | [_ [[_ E] | [[_ E] | [_ E]]]]];
      rewrite E in H; try discriminate.
    + assert (g' = g3) as -> by congruence. exact Hp3.
    + assert (g' = set_running g3 false) as -> by congruence. exact Hp3.
Qed.

(** C2, at a state the game reaches: the T piece standing upright in rows
    17 to 19 fits ([valid_move(0, 0)] holds), the board is well formed, and
    the next [update] moves it to row 18 without asking [valid_move]: its
    lowest cell is then at row 20, below the board, [valid_move(0, 0)] is
    false, and [lock_piece] raises [IndexError].  In the second game the I
    piece is moved by [update] onto the two upper cells of the locked O
    piece, and [lock_piece] overwrites them.  In both games the pieces were
    moved with the keys just before, which [handle_key] validated. *)
Theorem gravity_step_commits_unchecked_row :
  (wf_board (board upright_T) /\
   valid_move_on (board upright_T) (current_piece upright_T) 0 0 = Val true /\
   let g1 := snd (gravity_step upright_T) in
   fst (gravity_step upright_T) = Val true /\
   Piece.y (current_piece g1) = 18 /\
   cell_at (Piece.shape (current_piece g1)) 2 0 = Some 1 /\
   valid_move_on (board g1) (current_piece g1) 0 0 = Val false /\
   fst (update (0, 0)%nat upright_T) = IndexError) /\
  (wf_board (board I_over_O) /\
   valid_move_on (board I_over_O) (current_piece I_over_O) 0 0 = Val true /\
   board_get (board I_over_O) 18 0 = Some (Some "yellow"%string) /\
   let g1 := snd (gravity_step I_over_O) in
   Piece.y (current_piece g1) = 18 /\ Piece.x (current_piece g1) = 0 /\
   cell_at (Piece.shape (current_piece g1)) 0 0 = Some 1 /\
   valid_move_on (board g1) (current_piece g1) 0 0 = Val false /\
   fst (update (1, 1)%nat I_over_O) = Val true /\
   board_get (board (snd (update (1, 1)%nat I_over_O))) 18 0
   = Some (Some "cyan"%string)).
Proof.
  split.
  - split; [apply wf_boardb_spec; vm_compute; reflexivity|].
    vm_compute. repeat split.
  - split; [apply wf_boardb_spec; vm_compute; reflexivity|].
    vm_compute. repeat split.
Qed.

(** C9, at a state the game reaches: [Down] has just set the drop speed to
    [FAST_DROP_SPEED]; the [update] that follows raises [IndexError] in
    [lock_piece], before the line that resets the speed, so the speed is
    still [FAST_DROP_SPEED] afterwards and no tick is scheduled.  Every
    [update] that returns does end with [FALL_SPEED]. *)
Theorem update_raise_skips_speed_reset :
  (drop_speed upright_T = FAST_DROP_SPEED /\
   fst (update (0, 0)%nat upright_T) = IndexError /\
   drop_speed (snd (update (0, 0)%nat upright_T)) = FAST_DROP_SPEED /\
   FAST_DROP_SPEED <> FALL_SPEED /\
   pending (mainloop (2, 2)%nat (upright_T_events ++ [Tick (0, 0)%nat])) = false) /\
  (forall rnd g g' scheduled,
      update rnd g = (Val scheduled, g') -> drop_speed g' = FALL_SPEED).
Proof.
  split.
  - vm_compute. repeat split. discriminate.
  - intros rnd g g' scheduled H. now apply update_returns in H.
Qed.

(** ** The theorems at concrete states *)

Lemma valid_move_false_iff_witness :
  wf_board (board at_left_wall) /\
  some_cell_blocked (board at_left_wall) (current_piece at_left_wall) (-1) 0.
Proof.
  assert (Hwf : wf_board (board at_left_wall)) by exact wf_empty_board.
  split; [exact Hwf|].
  apply (proj1 (valid_move_false_iff at_left_wall (-1) 0 Hwf)).
  reflexivity.
Defined.

Lemma valid_move_reads_in_grid_witness :
  wf_board empty_board /\
  exists r, valid_move_on empty_board (new_piece (2, 2)%nat) 0 1 = Val r.
Proof.
  split; [exact wf_empty_board|].
  apply (proj2 (valid_move_reads_in_grid empty_board (new_piece (2, 2)%nat) 0 1)).
  exact wf_empty_board.
Defined.

Lemma clear_full_rows_spec_witness :
  Z.of_nat (length (board one_full_row)) = BOARD_HEIGHT /\
  (1 = length (filter full_row (board one_full_row)))%nat /\
  exists g',
    clear_full_rows one_full_row = (Val tt, g') /\
    score g' = score one_full_row + 100 * 1 /\
    Z.of_nat (length (board g')) = BOARD_HEIGHT /\
    board_get (board g') 19 0 = Some (Some "blue"%string).
Proof.
  assert (Hlen : Z.of_nat (length (board one_full_row)) = BOARD_HEIGHT)
    by reflexivity.
  assert (Hk : (1 = length (filter full_row (board one_full_row)))%nat)
    by reflexivity.
  split; [exact Hlen|]. split; [exact Hk|].
  destruct (clear_full_rows_spec one_full_row 1 Hlen Hk)
    as (g' & Hrun & Hboard & Hscore & Hrows & _).
  exists g'. split; [exact Hrun|]. split; [exact Hscore|].
  split; [exact Hrows|]. rewrite Hboard. reflexivity.
Defined.

Lemma running_is_one_way_witness :
  let w := mainloop (1, 1)%nat stacked_O_events in
  running (game w) = false /\
  let w' := fold_left dispatch
              [Tick (0, 0)%nat; Key "Left"; Tick (3, 3)%nat] w in
  running (game w') = false /\ pending w' = false.
Proof.
  intros w.
  assert (Hover : running (game w) = false) by (vm_compute; reflexivity).
  split; [exact Hover|].
  exact (proj2 (proj2 running_is_one_way) (1, 1)%nat stacked_O_events
           [Tick (0, 0)%nat; Key "Left"; Tick (3, 3)%nat] Hover).
Defined.

Lemma rejected_key_is_noop_witness :
  fst (valid_move (-1) 0 at_left_wall) = Val false /\
  handle_key "Left" at_left_wall = (Val tt, at_left_wall) /\
  fst (valid_move 0 0
         (set_current_piece I_on_floor (Piece.rotate (current_piece I_on_floor))))
  = Val false /\
  handle_key "Up" I_on_floor = (Val tt, I_on_floor).
Proof.
  assert (HL : fst (valid_move (-1) 0 at_left_wall) = Val false) by reflexivity.
  assert (HU : fst (valid_move 0 0
                      (set_current_piece I_on_floor
                         (Piece.rotate (current_piece I_on_floor))))
               = Val false) by reflexivity.
  split; [exact HL|].
  split; [exact (proj1 (rejected_key_is_noop at_left_wall) HL)|].
  split; [exact HU|].
  exact (proj2 (proj2 (rejected_key_is_noop I_on_floor)) HU).
Defined.

Lemma new_piece_spawn_position_witness :
  lock_piece (1, 1)%nat row0_at_lock
  = (Val tt, snd (lock_piece (1, 1)%nat row0_at_lock)) /\
  current_piece (snd (lock_piece (1, 1)%nat row0_at_lock)) = new_piece (1, 1)%nat /\
  Piece.x (new_piece (1, 1)%nat) = 4.
Proof.
  assert (Hlock : lock_piece (1, 1)%nat row0_at_lock
                  = (Val tt, snd (lock_piece (1, 1)%nat row0_at_lock)))
    by (vm_compute; reflexivity).
  split; [exact Hlock|].
  split; [|reflexivity].
  exact (proj2 (proj2 (proj2 new_piece_spawn_position))
           (1, 1)%nat row0_at_lock _ Hlock).
Defined.

Lemma update_raise_skips_speed_reset_witness :
  let g := set_drop_speed (init (1, 1)%nat) FAST_DROP_SPEED in
  update (0, 0)%nat g = (Val true, snd (update (0, 0)%nat g)) /\
  drop_speed (snd (update (0, 0)%nat g)) = FALL_SPEED.
Proof.
  intros g.
  assert (Hret : update (0, 0)%nat g = (Val true, snd (update (0, 0)%nat g)))
    by (vm_compute; reflexivity).
  split; [exact Hret|].
  exact (proj2 update_raise_skips_speed_reset (0, 0)%nat g _ true Hret).
Defined.

(** ** Redrawing a board of the right dimensions *)

Lemma in_range (n i : Z) : In i (range n) <-> 0 <= i < n.
Proof.
  unfold range. rewrite in_map_iff. split.
  - intros (k & <- & Hk). apply in_seq in Hk. lia.
  - intros Hi. exists (Z.to_nat i). split; [lia|]. apply in_seq. lia.
Qed.

Lemma draw_locked_cells_spec (b : board_t) (y : Z) (xs : list Z) :
  wf_board b -> 0 <= y < BOARD_HEIGHT ->
  (forall x, In x xs -> 0 <= x < BOARD_WIDTH) ->
  exists rs,
    draw_locked_cells b y xs = (rs, Val tt) /\
    forall rect,
      In rect rs <->
      exists x name, In x xs /\ board_get b y x = Some (Some name) /\
                     rect = locked_square y x name.
Proof.
  intros Hwf Hy. induction xs as [|x xs IH]; intros Hxs.
  - exists []. split; [reflexivity|]. intros rect. split; [intros []|].
    intros (x & name & [] & _).
  - destruct IH as (rs & E & Hrs); [intros x' H; apply Hxs; now right|].
    destruct (board_get_in_grid b y x Hwf Hy) as [c Hc];
      [apply Hxs; now left|].
    cbn [draw_locked_cells]. rewrite Hc, E.
    eexists. split; [reflexivity|]. intros rect. rewrite in_app_iff, Hrs.
    split.
    + intros [Hhere | (x' & name & Hin & Hget & ->)].
      * destruct c as [name|]; [|destruct Hhere].
        destruct Hhere as [<- | []]. exists x, name. auto with datatypes.
      * exists x', name. auto with datatypes.
    + intros (x' & name & [<- | Hin] & Hget & ->).
      * left. rewrite Hc in Hget. injection Hget as ->. now left.
      * right. exists x', name. auto.
Qed.

Lemma draw_locked_rows_spec (b : board_t) (ys xs : list Z) :
  wf_board b ->
  (forall y, In y ys -> 0 <= y < BOARD_HEIGHT) ->
  (forall x, In x xs -> 0 <= x < BOARD_WIDTH) ->
  exists rs,
    draw_locked_rows b ys xs = (rs, Val tt) /\
    forall rect,
      In rect rs <->
      exists y x name, In y ys /\ In x xs /\
                       board_get b y x = Some (Some name) /\
                       rect = locked_square y x name.
Proof.
  intros Hwf Hys Hxs. induction ys as [|y ys IH].
  - exists []. split; [reflexivity|]. intros rect. split; [intros []|].
    intros (y & x & name & [] & _).
  - destruct IH as (rs' & E' & Hrs'); [intros y' H; apply Hys; now right|].
    destruct (draw_locked_cells_spec b y xs Hwf) as (rs & E & Hrs);
      [apply Hys; now left | exact Hxs |].
    cbn [draw_locked_rows]. rewrite E, E'.
    eexists. split; [reflexivity|]. intros rect.
    rewrite in_app_iff, Hrs, Hrs'. split.
    + intros [(x & name & Hx & Hget & ->) | (y' & x & name & Hy' & Hx & Hget & ->)].
      * exists y, x, name. auto with datatypes.
      * exists y', x, name. auto with datatypes.
    + intros (y' & x & name & [<- | Hy'] & Hx & Hget & ->).
      * left. exists x, name. auto.
      * right. exists y', x, name. auto.
Qed.

(** On a board of [BOARD_HEIGHT] by [BOARD_WIDTH] cells [draw_board]
    returns. *)
Lemma draw_board_returns (g : Tetris) :
  wf_board (board g) -> snd (draw_board g) = Val tt.
Proof.
  intros Hwf. unfold draw_board.
  destruct (draw_locked_rows_spec (board g) (range BOARD_HEIGHT)
              (range BOARD_WIDTH) Hwf) as (rs & E & _).
  - intros y Hy. now apply in_range.
  - intros x Hx. now apply in_range.
  - rewrite E. reflexivity.
Qed.

Lemma update_tail_wf (g : Tetris) :
  wf_board (board g) ->
  update_tail g = (Val (running g), set_drop_speed g FALL_SPEED).
Proof.
  intros Hwf. unfold update_tail. now rewrite draw_board_returns.
Qed.

(** Without its rows the board cannot be redrawn: [draw_board] raises at
    line 77, and [update] ends there, before the drop speed is reset. *)
Lemma update_raises_in_draw_board :
  let g := set_drop_speed (set_board (init (1, 1)%nat) []) FAST_DROP_SPEED in
  fst (update (0, 0)%nat g) = IndexError /\
  drop_speed (snd (update (0, 0)%nat g)) = FAST_DROP_SPEED.
Proof. split; reflexivity. Qed.

(** ** The steps of [update], one at a time *)

Lemma gravity_step_facts (g : Tetris) :
  let p := current_piece g in
  let g1 := snd (gravity_step g) in
  let p1 := current_piece g1 in
  exists crossed : bool,
    fst (gravity_step g) = Val crossed /\
    board g1 = board g /\ score g1 = score g /\
    running g1 = running g /\ drop_speed g1 = drop_speed g /\
    Piece.shape p1 = Piece.shape p /\ Piece.color p1 = Piece.color p /\
    Piece.x p1 = Piece.x p /\
    (crossed = true ->
       (Piece.y p + 1) * BLOCK_SIZE <= Piece.pixel_y p + drop_speed g /\
       Piece.y p1 = Piece.y p + 1 /\
       Piece.pixel_y p1 = (Piece.y p + 1) * BLOCK_SIZE) /\
    (crossed = false ->
       Piece.pixel_y p + drop_speed g < (Piece.y p + 1) * BLOCK_SIZE /\
       Piece.y p1 = Piece.y p /\
       Piece.pixel_y p1 = Piece.pixel_y p + drop_speed g).
Proof.
  intros p g1 p1. subst p g1 p1.
  unfold gravity_step, bind, get, modify_piece, modify, ret.
  cbn [fst snd current_piece set_current_piece set_pixel_y set_y
       Piece.pixel_y Piece.y].
  destruct (Z.geb_spec (Piece.pixel_y (current_piece g) + drop_speed g)
              ((Piece.y (current_piece g) + 1) * BLOCK_SIZE)) as [Hge|Hlt].
  - exists true. cbn. repeat split; try discriminate; lia.
  - exists false. cbn. repeat split; try discriminate; lia.
Qed.

Lemma update_eq (rnd : nat * nat) (g : Tetris) :
  update rnd g =
  match gravity_step g with
  | (Val true, g1) =>
      match check_collision rnd g1 with
      | (Val _, g2) => update_tail g2
      | (IndexError, g2) => (IndexError, g2)
      end
  | (Val false, g1) => update_tail g1
  | (IndexError, g1) => (IndexError, g1)
  end.
Proof.
  assert (Htail : forall g2,
    (redraw ;; modify (fun g => set_drop_speed g FALL_SPEED) ;;
     g <- get ;; ret (running g)) g2 = update_tail g2).
  { intros g2. unfold update_tail, bind, redraw, modify, get, ret.
    destruct (snd (draw_board g2)); reflexivity. }
  unfold update. unfold bind at 1.
  destruct (gravity_step g) as [[[|]|] g1]; [| |reflexivity].
  - unfold bind at 1.
    destruct (check_collision rnd g1) as [[u|] g2]; [apply Htail|reflexivity].
  - unfold bind at 1. unfold ret at 1. apply Htail.
Qed.

(** The state [update_tail] ends in. *)
Lemma update_tail_end (g : Tetris) :
  snd (update_tail g) = g \/ snd (update_tail g) = set_drop_speed g FALL_SPEED.
Proof.
  unfold update_tail. destruct (snd (draw_board g)); auto.
Qed.

Lemma check_collision_eq (rnd : nat * nat) (g : Tetris) :
  check_collision rnd g =
  match valid_move_on (board g) (current_piece g) 0 1 with
  | Val true => (Val tt, g)
  | Val false => lock_piece rnd g
  | IndexError => (IndexError, g)
  end.
Proof.
  unfold check_collision, bind, valid_move.
  destruct (valid_move_on (board g) (current_piece g) 0 1) as [[|]|];
    reflexivity.
Qed.

(** ** What [lock_piece] writes and what it leaves alone *)

Lemma keeps_for_enumM_from {A : Type} (P : Tetris -> Prop)
  (body : Z -> A -> M unit) (i0 : Z) (l : list A) :
  (forall i a, i0 <= i -> keeps P (body i a)) ->
  forall i, i0 <= i -> keeps P (for_enumM body i l).
Proof.
  intros Hbody. induction l as [|a l IH]; intros i Hi; simpl.
  - apply keeps_ret.
  - apply keeps_bind; [now apply Hbody | intros _; apply IH; lia].
Qed.

Lemma replace_nth_head {A : Type} (l : list A) (k : nat) (v : A) :
  (1 <= k)%nat -> nth_error (replace_nth l k v) 0 = nth_error l 0.
Proof. destruct l as [|a l], k as [|k]; simpl; auto; lia. Qed.

Lemma py_setitem_head {A : Type} (l l' : list A) (i : Z) (v : A) :
  1 <= i -> py_setitem l i v = Some l' -> nth_error l' 0 = nth_error l 0.
Proof.
  intros Hi. unfold py_setitem.
  destruct (_ && _) eqn:E1.
  - intros H; injection H as <-. apply replace_nth_head. lia.
  - destruct ((- _ <=? i) && (i <? 0)) eqn:E2; intros H; [|discriminate H].
    apply andb_true_iff in E2. destruct E2 as [_ E2].
    apply Z.ltb_lt in E2. lia.
Qed.

(** An assignment to a row below the top one leaves the top row, the piece
    and everything else alone. *)
Lemma board_setitem_below (r c : Z) (v : cell) (g : Tetris) :
  1 <= r ->
  let g' := snd (board_setitem r c v g) in
  nth_error (board g') 0 = nth_error (board g) 0 /\ same_but_board g g'.
Proof.
  intros Hr. unfold board_setitem.
  destruct (py_index (board g) r) as [row|]; [|repeat split].
  destruct (py_setitem row c v) as [row'|]; [|repeat split].
  destruct (py_setitem (board g) r row') as [b'|] eqn:Hb'; [|repeat split].
  simpl. split; [|repeat split]. eapply py_setitem_head; eauto.
Qed.

Lemma lock_cells_top_row (g : Tetris) :
  1 <= Piece.y (current_piece g) ->
  nth_error (board (snd (lock_cells g))) 0 = nth_error (board g) 0.
Proof.
  intros Hy.
  set (Q := fun g' : Tetris =>
              current_piece g' = current_piece g /\
              nth_error (board g') 0 = nth_error (board g) 0).
  assert (HQ : Q (snd (lock_cells g))); [|exact (proj2 HQ)].
  assert (Hk : keeps Q lock_cells); [|apply Hk; split; reflexivity].
  unfold lock_cells. apply keeps_bind; [apply keeps_get|]. intros g0.
  apply keeps_for_enumM_from with (i0 := 0); [|lia]. intros yi row Hyi.
  apply keeps_for_enumM_from with (i0 := 0); [|lia]. intros xi v Hxi.
  destruct (v =? 1); [|apply keeps_ret].
  intros g1 [Hp Htop]. unfold bind, get.
  destruct (board_setitem_below (Piece.y (current_piece g1) + yi)
              (Piece.x (current_piece g1) + xi)
              (Some (Piece.color (current_piece g1))) g1)
    as [Htop' (Hp' & _)]; [rewrite Hp; lia|].
  destruct (board_setitem _ _ _ g1) as [[u|] g2]; simpl in *;
    split; congruence.
Qed.

Lemma lock_cells_wf_board (g : Tetris) :
  wf_board (board g) -> wf_board (board (snd (lock_cells g))).
Proof.
  apply (keeps_lock_cells (fun g' => wf_board (board g'))). auto.
Qed.

Lemma has_empty_cell_empty_row : has_empty_cell empty_row = true.
Proof. reflexivity. Qed.

Lemma clear_full_rows_top_row (g : Tetris) :
  top_row_empty (board g) ->
  top_row_empty (board (snd (clear_full_rows g))).
Proof.
  unfold top_row_empty. intros Htop.
  destruct (board g) as [|row0 rest] eqn:Hb; [discriminate|].
  simpl in Htop. injection Htop as ->.
  unfold clear_full_rows, bind, get, modify.
  cbn [snd board set_board set_score]. rewrite Hb.
  cbn [filter]. rewrite has_empty_cell_empty_row.
  destruct (Z.to_nat _); reflexivity.
Qed.

Lemma clear_full_rows_score (g : Tetris) :
  Z.of_nat (length (board g)) = BOARD_HEIGHT ->
  score (snd (clear_full_rows g))
  = score g + 100 * Z.of_nat (length (filter full_row (board g))).
Proof.
  intros Hlen. pose proof (full_rows_count (board g)) as Hcount.
  unfold clear_full_rows, bind, get, modify.
  cbn [snd score set_board set_score]. lia.
Qed.

(** The state in which [lock_piece] leaves the object. *)
Lemma lock_piece_end (rnd : nat * nat) (g : Tetris) :
  let g1 := snd (lock_cells g) in
  let g3 := set_current_piece (snd (clear_full_rows g1)) (new_piece rnd) in
  snd (lock_piece rnd g) = g1 \/
  snd (lock_piece rnd g) = g3 \/
  snd (lock_piece rnd g) = set_running g3 false.
Proof.
  intros g1 g3.
  destruct (lock_piece_cases rnd g)
    as [[_ E] | [_ [[_ E] | [[_ E] | [_ E]]]]]; rewrite E; auto.
Qed.

Lemma in_band_new_piece (rnd : nat * nat) : in_band (new_piece rnd).
Proof.
  unfold in_band. rewrite new_piece_y.
  change (Piece.pixel_y (new_piece rnd)) with 0.
  unfold BLOCK_SIZE. lia.
Qed.

Lemma lock_piece_in_play (rnd : nat * nat) (g : Tetris) :
  in_play g -> 1 <= Piece.y (current_piece g) ->
  in_play (snd (lock_piece rnd g)).
Proof.
  intros (Hwf & Htop & Hband & Hspeed) Hy.
  pose proof (lock_cells_same_but_board g) as (Hp1 & _ & _ & Hd1).
  pose proof (lock_cells_wf_board g Hwf) as Hwf1.
  pose proof (lock_cells_top_row g Hy) as Htop1.
  set (g1 := snd (lock_cells g)) in *.
  assert (Htop1' : top_row_empty (board g1))
    by (unfold top_row_empty; now rewrite Htop1).
  pose proof (clear_full_rows_wf_board g1 Hwf1) as Hwf2.
  pose proof (clear_full_rows_top_row g1 Htop1') as Htop2.
  assert (Hd3 : drop_speed (set_current_piece (snd (clear_full_rows g1))
                              (new_piece rnd)) = drop_speed g)
    by (rewrite <- Hd1; reflexivity).
  assert (H3 : in_play (set_current_piece (snd (clear_full_rows g1))
                          (new_piece rnd))).
  { split; [exact Hwf2|]. split; [exact Htop2|].
    split; [apply in_band_new_piece|].
    unfold speed_ok in *. now rewrite Hd3. }
  destruct (lock_piece_end rnd g) as [E | [E | E]]; rewrite E; fold g1.
  - split; [exact Hwf1|]. split; [exact Htop1'|].
    split; [now rewrite Hp1 | unfold speed_ok in *; now rewrite Hd1].
  - exact H3.
  - exact H3.
Qed.

Lemma lock_piece_score (rnd : nat * nat) (g : Tetris) :
  wf_board (board g) ->
  exists k : nat, score (snd (lock_piece rnd g)) = score g + 100 * Z.of_nat k.
Proof.
  intros Hwf.
  pose proof (lock_cells_same_but_board g) as (_ & Hs1 & _ & _).
  pose proof (lock_cells_wf_board g Hwf) as [Hlen1 _].
  pose proof (clear_full_rows_score _ Hlen1) as Hs2.
  destruct (lock_piece_end rnd g) as [E | [E | E]]; rewrite E.
  - exists 0%nat. rewrite Hs1. lia.
  - eexists. cbn [score set_current_piece]. rewrite Hs2, Hs1. reflexivity.
  - eexists. cbn [score set_current_piece set_running]. rewrite Hs2, Hs1.
    reflexivity.
Qed.

(** ** What a key can change *)

Lemma valid_move_on_total (b : board_t) (p : Piece.t) (dx dy : Z) :
  wf_board b -> valid_move_on b p dx dy <> IndexError.
Proof.
  intros Hwf. unfold valid_move_on.
  destruct (valid_move_traced_cases b p dx dy Hwf) as [[-> _] | [-> _]];
    discriminate.
Qed.

Lemma handle_key_frame (keysym : string) (g : Tetris) :
  let g' := snd (handle_key keysym g) in
  board g' = board g /\ score g' = score g /\ running g' = running g /\
  Piece.y (current_piece g') = Piece.y (current_piece g) /\
  Piece.pixel_y (current_piece g') = Piece.pixel_y (current_piece g) /\
  Piece.color (current_piece g') = Piece.color (current_piece g) /\
  (drop_speed g' = drop_speed g \/
   keysym = "Down"%string /\ drop_speed g' = FAST_DROP_SPEED) /\
  (wf_board (board g) -> fst (handle_key keysym g) = Val tt).
Proof.
  destruct (String.eqb_spec keysym "Left") as [->|HL].
  { rewrite handle_key_Left.
    pose proof (valid_move_on_total (board g) (current_piece g) (-1) 0) as Ht.
    destruct (valid_move_on _ _ (-1) 0) as [[|]|]; cbn;
      repeat split; auto; intros Hwf; now elim (Ht Hwf). }
  destruct (String.eqb_spec keysym "Right") as [->|HR].
  { rewrite handle_key_Right.
    pose proof (valid_move_on_total (board g) (current_piece g) 1 0) as Ht.
    destruct (valid_move_on _ _ 1 0) as [[|]|]; cbn;
      repeat split; auto; intros Hwf; now elim (Ht Hwf). }
  destruct (String.eqb_spec keysym "Down") as [->|HD].
  { rewrite handle_key_Down. cbn. repeat split; auto. }
  destruct (String.eqb_spec keysym "Up") as [->|HU].
  { rewrite handle_key_Up.
    pose proof (valid_move_on_total (board g)
                  (Piece.rotate (current_piece g)) 0 0) as Ht.
    destruct (valid_move_on _ _ 0 0) as [[|]|]; cbn;
      repeat split; auto; intros Hwf; now elim (Ht Hwf). }
  rewrite handle_key_other by assumption. cbn. repeat split; auto.
Qed.

Lemma handle_key_in_play (keysym : string) (g : Tetris) :
  in_play g -> in_play (snd (handle_key keysym g)).
Proof.
  intros (Hwf & Htop & Hband & Hspeed).
  destruct (handle_key_frame keysym g)
    as (Hb & _ & _ & Hy & Hpy & _ & Hd & _).
  unfold in_play, top_row_empty, in_band, speed_ok in *.
  rewrite Hb, Hy, Hpy.
  split; [exact Hwf|]. split; [exact Htop|]. split; [exact Hband|].
  destruct Hd as [Hd | [_ Hd]]; rewrite Hd; tauto.
Qed.

(** ** What [update] keeps *)

Lemma update_end (rnd : nat * nat) (g : Tetris) :
  let g1 := snd (gravity_step g) in
  let g' := snd (update rnd g) in
  g' = set_drop_speed g1 FALL_SPEED \/
  g' = g1 \/
  fst (gravity_step g) = Val true /\
  (g' = snd (lock_piece rnd g1) \/
   g' = set_drop_speed (snd (lock_piece rnd g1)) FALL_SPEED).
Proof.
  intros g1 g'. subst g1 g'. rewrite update_eq.
  destruct (gravity_step_facts g) as (crossed & Hc & _).
  destruct (gravity_step g) as [r g1]. simpl in Hc. subst r.
  simpl fst; simpl snd.
  assert (Htail : snd (update_tail g1) = set_drop_speed g1 FALL_SPEED \/
                  snd (update_tail g1) = g1)
    by (destruct (update_tail_end g1); auto).
  destruct crossed; [|destruct Htail; auto].
  rewrite check_collision_eq.
  destruct (valid_move_on (board g1) (current_piece g1) 0 1) as [[|]|].
  - destruct Htail; auto.
  - right; right. split; [reflexivity|].
    destruct (lock_piece rnd g1) as [[u|] g2]; simpl snd.
    + destruct (update_tail_end g2); auto.
    + left. reflexivity.
  - right; left. reflexivity.
Qed.

Lemma gravity_step_in_play (g : Tetris) :
  in_play g ->
  in_play (snd (gravity_step g)) /\
  (fst (gravity_step g) = Val true ->
   1 <= Piece.y (current_piece (snd (gravity_step g)))).
Proof.
  intros (Hwf & Htop & (Hy0 & Hlo & Hhi) & Hspeed).
  destruct (gravity_step_facts g)
    as (crossed & Hc & Hb & _ & _ & Hd & _ & _ & _ & Hyes & Hno).
  assert (Hs : 0 <= drop_speed g)
    by (destruct Hspeed as [-> | ->]; discriminate).
  unfold in_play, top_row_empty, in_band, speed_ok. rewrite Hb, Hd.
  unfold BLOCK_SIZE in *. destruct crossed.
  - destruct (Hyes eq_refl) as (_ & -> & ->).
    split; [|intros _; lia].
    split; [exact Hwf|]. split; [exact Htop|]. split; [lia | exact Hspeed].
  - destruct (Hno eq_refl) as (Hlt & -> & ->).
    split; [|rewrite Hc; discriminate].
    split; [exact Hwf|]. split; [exact Htop|]. split; [lia | exact Hspeed].
Qed.

Lemma in_play_set_drop_speed (g : Tetris) :
  in_play g -> in_play (set_drop_speed g FALL_SPEED).
Proof.
  intros (Hwf & Htop & Hband & _).
  split; [exact Hwf|]. split; [exact Htop|]. split; [exact Hband|].
  left. reflexivity.
Qed.

Lemma update_in_play (rnd : nat * nat) (g : Tetris) :
  in_play g -> in_play (snd (update rnd g)).
Proof.
  intros Hg. destruct (gravity_step_in_play g Hg) as [H1 Hy1].
  destruct (update_end rnd g) as [E | [E | [Hc [E | E]]]]; rewrite E.
  - now apply in_play_set_drop_speed.
  - exact H1.
  - apply lock_piece_in_play; auto.
  - apply in_play_set_drop_speed, lock_piece_in_play; auto.
Qed.

Lemma dispatch_in_play (w : world) (e : event) :
  in_play (game w) -> in_play (game (dispatch w e)).
Proof.
  intros Hw. destruct e as [keysym|rnd]; simpl.
  - now apply handle_key_in_play.
  - destruct (pending w); [|exact Hw].
    pose proof (update_in_play rnd (game w) Hw) as Hu.
    destruct (update rnd (game w)) as [[scheduled|] g']; exact Hu.
Qed.

Lemma init_in_play (rnd : nat * nat) : in_play (init rnd).
Proof.
  split; [exact wf_empty_board|]. split; [reflexivity|].
  split; [apply in_band_new_piece | left; reflexivity].
Qed.

Lemma mainloop_in_play (rnd : nat * nat) (es : list event) :
  in_play (game (mainloop rnd es)).
Proof.
  unfold mainloop.
  set (w0 := dispatch _ (Tick rnd)).
  assert (H0 : in_play (game w0))
    by (apply dispatch_in_play, init_in_play).
  clearbody w0. revert w0 H0.
  induction es as [|e es IH]; intros w0 H0; simpl; [exact H0|].
  apply IH, dispatch_in_play, H0.
Qed.

Lemma mainloop_snoc (rnd : nat * nat) (es : list event) (e : event) :
  mainloop rnd (es ++ [e]) = dispatch (mainloop rnd es) e.
Proof. unfold mainloop. now rewrite fold_left_app. Qed.

(** ** The end of the game *)






(** The empty top row is needed: on a board built by hand with a locked
    cell at row 0, column 4, which no game reaches, the O piece spawned by
    this [lock_piece], and by this [update], lies on that cell, can still
    move down, and [running] stays true with the next tick scheduled. *)
Lemma overlap_clause_needs_empty_top_row :
  exists g',
    lock_piece (1, 1)%nat row0_at_lock = (Val tt, g') /\
    update (1, 1)%nat row0_game = (Val true, g') /\
    spawn_overlaps_row0 (board g') (current_piece g') /\
    fst (valid_move 0 1 g') = Val true /\
    running g' = true.
Proof.
  exists (snd (lock_piece (1, 1)%nat row0_at_lock)).
  split; [vm_compute; reflexivity|].
  split; [vm_compute; reflexivity|].
  split; [|split; vm_compute; reflexivity].
  exists 0%nat, 0%nat, "red"%string. vm_compute. repeat split.
Qed.

Lemma update_score (rnd : nat * nat) (g : Tetris) :
  wf_board (board g) ->
  exists k : nat, score (snd (update rnd g)) = score g + 100 * Z.of_nat k.
Proof.
  intros Hwf.
  destruct (gravity_step_facts g) as (_ & _ & Hb & Hs & _).
  assert (Hwf1 : wf_board (board (snd (gravity_step g))))
    by now rewrite Hb.
  destruct (lock_piece_score rnd _ Hwf1) as [k Hk].
  destruct (update_end rnd g) as [E | [E | [_ [E | E]]]]; rewrite E.
  - exists 0%nat. cbn [score set_drop_speed]. lia.
  - exists 0%nat. lia.
  - exists k. lia.
  - exists k. cbn [score set_drop_speed]. lia.
Qed.

Lemma dispatch_score (w : world) (e : event) :
  wf_board (board (game w)) ->
  exists k : nat,
    score (game (dispatch w e)) = score (game w) + 100 * Z.of_nat k.
Proof.
  intros Hwf. destruct e as [keysym|rnd]; cbn [dispatch game].
  - exists 0%nat.
    destruct (handle_key_frame keysym (game w)) as (_ & Hs & _).
    rewrite Hs. lia.
  - destruct (pending w); [|exists 0%nat; lia].
    destruct (update_score rnd (game w) Hwf) as [k Hk]. exists k.
    destruct (update rnd (game w)) as [[scheduled|] g']; exact Hk.
Qed.

(** X1: the score is never negative and always a multiple of 100; no event
    makes it smaller, and a key event leaves it as it is. *)
Theorem score_counts_hundreds (rnd : nat * nat) (es : list event) :
  (exists n : nat, score (game (mainloop rnd es)) = 100 * Z.of_nat n) /\
  (forall e,
      score (game (mainloop rnd es))
      <= score (game (mainloop rnd (es ++ [e])))) /\
  (forall keysym,
      score (game (mainloop rnd (es ++ [Key keysym])))
      = score (game (mainloop rnd es))).
Proof.
  split; [|split].
  - induction es as [|e es IH] using rev_ind.
    + destruct (dispatch_score {| game := init rnd; pending := true |}
                  (Tick rnd) wf_empty_board) as [k Hk].
      exists k. unfold mainloop. cbn [fold_left]. rewrite Hk.
      cbn [game score init]. lia.
    + destruct IH as [n Hn]. rewrite mainloop_snoc.
      destruct (dispatch_score (mainloop rnd es) e (wf_board_invariant rnd es))
        as [k Hk].
      exists (n + k)%nat. lia.
  - intros e. rewrite mainloop_snoc.
    destruct (dispatch_score (mainloop rnd es) e (wf_board_invariant rnd es))
      as [k Hk]. lia.
  - intros keysym. rewrite mainloop_snoc. simpl.
    now destruct (handle_key_frame keysym (game (mainloop rnd es)))
      as (_ & -> & _).
Qed.

(** X2: the board keeps its [BOARD_HEIGHT] rows of [BOARD_WIDTH] cells:
    in every state the event loop reaches, and through every call of
    [handle_key], [update], [lock_piece] and [clear_full_rows], whether the
    call returns or raises. *)
Theorem board_dimensions_fixed :
  (forall rnd es, wf_board (board (game (mainloop rnd es)))) /\
  (forall g, wf_board (board g) ->
     (forall keysym, wf_board (board (snd (handle_key keysym g)))) /\
     (forall rnd, wf_board (board (snd (update rnd g)))) /\
     (forall rnd, wf_board (board (snd (lock_piece rnd g)))) /\
     wf_board (board (snd (clear_full_rows g)))).
Proof.
  split; [exact wf_board_invariant|]. intros g Hwf.
  split; [|split; [|split]].
  - intros keysym.
    apply (keeps_handle_key (fun g' => wf_board (board g'))); auto.
  - intros rnd. apply (keeps_update (fun g' => wf_board (board g'))); auto.
  - intros rnd.
    apply (keeps_lock_piece (fun g' => wf_board (board g'))); auto.
  - now apply clear_full_rows_wf_board.
Qed.

Lemma board_dimensions_fixed_witness :
  wf_board (board one_full_row) /\
  wf_board (board (snd (update (0, 0)%nat one_full_row))).
Proof.
  assert (Hwf : wf_board (board one_full_row))
    by (apply wf_boardb_spec; vm_compute; reflexivity).
  split; [exact Hwf|].
  exact (proj1 (proj2 (proj2 board_dimensions_fixed one_full_row Hwf))
           (0, 0)%nat).
Defined.

(** X3: no locked cell is ever in the top row: in every state the event
    loop reaches, row 0 of the board is empty, so the piece never lies on a
    locked cell of row 0 ([lock_piece] only runs after the piece has moved
    to row 1 or lower, and [clear_full_rows] only moves rows down). *)
Theorem top_row_never_locked (rnd : nat * nat) (es : list event) :
  let g := game (mainloop rnd es) in
  top_row_empty (board g) /\
  (forall c, board_get (board g) 0 c = Some None \/
             board_get (board g) 0 c = None) /\
  ~ spawn_overlaps_row0 (board g) (current_piece g).
Proof.
  intros g.
  destruct (mainloop_in_play rnd es) as (Hwf & Htop & _). fold g in Hwf, Htop.
  assert (Hget : forall c, board_get (board g) 0 c = Some None \/
                           board_get (board g) 0 c = None).
  { intros c. unfold board_get.
    destruct (py_index_nonneg (board g) 0) as (row & -> & Hrow).
    { destruct Hwf as [-> _]. rewrite BOARD_HEIGHT_eq. lia. }
    change (Z.to_nat 0) with 0%nat in Hrow.
    unfold top_row_empty in Htop. rewrite Htop in Hrow. injection Hrow as <-.
    destruct (py_index empty_row c) as [[name|]|] eqn:E; auto.
    apply py_index_In, repeat_spec in E. discriminate. }
  split; [exact Htop|]. split; [exact Hget|].
  intros (yi & xi & name & _ & _ & Hc).
  destruct (Hget (Piece.x (current_piece g) + Z.of_nat xi)); congruence.
Qed.

(** X4: in every state the event loop reaches, the row of the piece is not
    negative, its pixel position lies in the band of its row,
    [y * BLOCK_SIZE <= pixel_y < (y + 1) * BLOCK_SIZE], and the drop speed is
    one of [FALL_SPEED] and [FAST_DROP_SPEED]. *)
Theorem pixel_position_follows_row (rnd : nat * nat) (es : list event) :
  let g := game (mainloop rnd es) in
  let p := current_piece g in
  0 <= Piece.y p /\
  Piece.y p * BLOCK_SIZE <= Piece.pixel_y p < (Piece.y p + 1) * BLOCK_SIZE /\
  (drop_speed g = FALL_SPEED \/ drop_speed g = FAST_DROP_SPEED).
Proof.
  intros g p.
  destruct (mainloop_in_play rnd es) as (_ & _ & (Hy & Hband) & Hspeed).
  auto.
Qed.

(** X5: one [update] never takes a piece down more than one row, whatever
    the drop speed: afterwards the current piece is either the piece just
    spawned by [new_piece], or the old one (same shape, colour and column)
    in the same row or in the next. *)
Theorem update_moves_at_most_one_row (rnd : nat * nat) (g : Tetris) :
  let p := current_piece g in
  let p' := current_piece (snd (update rnd g)) in
  p' = new_piece rnd \/
  (Piece.shape p' = Piece.shape p /\ Piece.color p' = Piece.color p /\
   Piece.x p' = Piece.x p /\
   (Piece.y p' = Piece.y p \/ Piece.y p' = Piece.y p + 1)).
Proof.
  intros p p'. subst p p'.
  destruct (gravity_step_facts g)
    as (crossed & _ & _ & _ & _ & _ & Hsh & Hco & Hx & Hyes & Hno).
  set (g1 := snd (gravity_step g)) in *.
  assert (Hy : Piece.y (current_piece g1) = Piece.y (current_piece g) \/
               Piece.y (current_piece g1) = Piece.y (current_piece g) + 1).
  { destruct crossed.
    - right. apply (Hyes eq_refl).
    - left. apply (Hno eq_refl). }
  assert (H1 : Piece.shape (current_piece g1) = Piece.shape (current_piece g) /\
               Piece.color (current_piece g1) = Piece.color (current_piece g) /\
               Piece.x (current_piece g1) = Piece.x (current_piece g) /\
               (Piece.y (current_piece g1) = Piece.y (current_piece g) \/
                Piece.y (current_piece g1) = Piece.y (current_piece g) + 1))
    by auto.
  assert (Hlock : current_piece (snd (lock_piece rnd g1)) = new_piece rnd \/
                  current_piece (snd (lock_piece rnd g1)) = current_piece g1).
  { pose proof (lock_cells_same_but_board g1) as (Hp & _).
    destruct (lock_piece_end rnd g1) as [E | [E | E]]; rewrite E; auto. }
  destruct (update_end rnd g) as [E | [E | [_ [E | E]]]]; rewrite E;
    fold g1; cbn [current_piece set_drop_speed].
  - right. exact H1.
  - right. exact H1.
  - destruct Hlock as [-> | ->]; auto.
  - destruct Hlock as [-> | ->]; auto.
Qed.

(** X6: what a key event can do.  [handle_key] never touches the board, the
    score, [running], or the row, pixel position and colour of the piece;
    the column changes by at most one, the shape stays or is rotated once,
    the drop speed stays or becomes [FAST_DROP_SPEED]; a key other than
    [Left], [Right], [Down] and [Up] changes nothing at all; and on a board
    of [BOARD_HEIGHT] by [BOARD_WIDTH] cells the call never raises. *)
Theorem key_effect (keysym : string) (g : Tetris) :
  let g' := snd (handle_key keysym g) in
  let p := current_piece g in
  let p' := current_piece g' in
  (board g' = board g /\ score g' = score g /\ running g' = running g) /\
  (Piece.y p' = Piece.y p /\ Piece.pixel_y p' = Piece.pixel_y p /\
   Piece.color p' = Piece.color p) /\
  (Piece.x p' = Piece.x p \/ Piece.x p' = Piece.x p - 1 \/
   Piece.x p' = Piece.x p + 1) /\
  (Piece.shape p' = Piece.shape p \/
   Piece.shape p' = Piece.rotate_shape (Piece.shape p)) /\
  (drop_speed g' = drop_speed g \/ drop_speed g' = FAST_DROP_SPEED) /\
  (keysym <> "Left"%string -> keysym <> "Right"%string ->
   keysym <> "Down"%string -> keysym <> "Up"%string ->
   handle_key keysym g = (Val tt, g)) /\
  (wf_board (board g) -> fst (handle_key keysym g) = Val tt).
Proof.
  intros g' p p'. subst g' p p'.
  destruct (handle_key_frame keysym g)
    as (Hb & Hs & Hr & Hy & Hpy & Hc & Hd & Hret).
  split; [auto|]. split; [auto|].
  assert (Hother : keysym <> "Left"%string -> keysym <> "Right"%string ->
                   keysym <> "Down"%string -> keysym <> "Up"%string ->
                   handle_key keysym g = (Val tt, g))
    by (intros; now apply handle_key_other).
  assert (Hd' : drop_speed (snd (handle_key keysym g)) = drop_speed g \/
                drop_speed (snd (handle_key keysym g)) = FAST_DROP_SPEED)
    by (destruct Hd as [Hd | [_ Hd]]; auto).
  cut ((Piece.x (current_piece (snd (handle_key keysym g)))
        = Piece.x (current_piece g) \/
        Piece.x (current_piece (snd (handle_key keysym g)))
        = Piece.x (current_piece g) - 1 \/
        Piece.x (current_piece (snd (handle_key keysym g)))
        = Piece.x (current_piece g) + 1) /\
       (Piece.shape (current_piece (snd (handle_key keysym g)))
        = Piece.shape (current_piece g) \/
        Piece.shape (current_piece (snd (handle_key keysym g)))
        = Piece.rotate_shape (Piece.shape (current_piece g)))).
  { intros [Hx Hsh]. auto 10. }
  destruct (String.eqb_spec keysym "Left") as [->|HL].
  { rewrite handle_key_Left.
    destruct (valid_move_on _ _ (-1) 0) as [[|]|]; cbn; auto. }
  destruct (String.eqb_spec keysym "Right") as [->|HR].
  { rewrite handle_key_Right.
    destruct (valid_move_on _ _ 1 0) as [[|]|]; cbn; auto. }
  destruct (String.eqb_spec keysym "Down") as [->|HD].
  { rewrite handle_key_Down. cbn. auto. }
  destruct (String.eqb_spec keysym "Up") as [->|HU].
  { rewrite handle_key_Up.
    destruct (valid_move_on _ _ 0 0) as [[|]|]; cbn; auto. }
  rewrite Hother by assumption. cbn. auto.
Qed.

Lemma key_effect_witness :
  wf_board (board at_left_wall) /\
  fst (handle_key "Up" at_left_wall) = Val tt /\
  handle_key "space" at_left_wall = (Val tt, at_left_wall).
Proof.
  assert (Hwf : wf_board (board at_left_wall)) by exact wf_empty_board.
  split; [exact Hwf|].
  destruct (key_effect "Up" at_left_wall) as (_ & _ & _ & _ & _ & _ & Hret).
  split; [exact (Hret Hwf)|].
  destruct (key_effect "space" at_left_wall) as (_ & _ & _ & _ & _ & Hoth & _).
  apply Hoth; discriminate.
Defined.

(** X7: keys keep the piece where it may be.  When [valid_move(0, 0)]
    holds for the current piece and [handle_key] returns, [valid_move(0, 0)]
    holds for the piece it leaves, on the same board: an accepted [Left],
    [Right] or [Up] was validated at its target, a rejected one changes
    nothing. *)
Theorem keys_keep_piece_valid (keysym : string) (g g' : Tetris) :
  valid_move_on (board g) (current_piece g) 0 0 = Val true ->
  handle_key keysym g = (Val tt, g') ->
  board g' = board g /\
  valid_move_on (board g') (current_piece g') 0 0 = Val true.
Proof.
  intros Hfit Hkey.
  destruct (handle_key_commits_valid keysym g g' Hkey) as [Hb [Hp | Hv]].
  - split; [exact Hb|]. now rewrite Hb, Hp.
  - split; assumption.
Qed.

Lemma keys_keep_piece_valid_witness :
  valid_move_on (board (init (2, 2)%nat)) (current_piece (init (2, 2)%nat)) 0 0
  = Val true /\
  handle_key "Up" (init (2, 2)%nat)
  = (Val tt, snd (handle_key "Up" (init (2, 2)%nat))) /\
  valid_move_on (board (snd (handle_key "Up" (init (2, 2)%nat))))
    (current_piece (snd (handle_key "Up" (init (2, 2)%nat)))) 0 0
  = Val true.
Proof.
  assert (Hfit : valid_move_on (board (init (2, 2)%nat))
                   (current_piece (init (2, 2)%nat)) 0 0 = Val true)
    by (vm_compute; reflexivity).
  assert (Hkey : handle_key "Up" (init (2, 2)%nat)
                 = (Val tt, snd (handle_key "Up" (init (2, 2)%nat))))
    by (vm_compute; reflexivity).
  split; [exact Hfit|]. split; [exact Hkey|].
  exact (proj2 (keys_keep_piece_valid "Up" (init (2, 2)%nat) _ Hfit Hkey)).
Defined.

(** ** Clearing twice *)

Lemma filter_has_empty_repeat (k : nat) :
  filter has_empty_cell (repeat empty_row k) = repeat empty_row k.
Proof.
  induction k as [|k IH]; [reflexivity|]. cbn [repeat filter].
  rewrite has_empty_cell_empty_row. now rewrite IH.
Qed.

Lemma filter_twice {A : Type} (f : A -> bool) (l : list A) :
  filter f (filter f l) = filter f l.
Proof.
  induction l as [|a l IH]; simpl; [reflexivity|].
  destruct (f a) eqn:E; simpl; [rewrite E|]; now rewrite ?IH.
Qed.

(** X8: after [clear_full_rows] on a board of [BOARD_HEIGHT] rows no full
    row is left, and clearing once more changes neither the board nor the
    score. *)
Theorem clear_full_rows_twice (g : Tetris) :
  Z.of_nat (length (board g)) = BOARD_HEIGHT ->
  let g1 := snd (clear_full_rows g) in
  let g2 := snd (clear_full_rows g1) in
  filter full_row (board g1) = [] /\
  board g2 = board g1 /\ score g2 = score g1.
Proof.
  intros Hlen g1 g2.
  pose proof (full_rows_count (board g)) as Hcount.
  assert (Hb1 : board g1
                = repeat empty_row
                    (Z.to_nat (BOARD_HEIGHT
                               - Z.of_nat (length (filter has_empty_cell (board g)))))
                  ++ filter has_empty_cell (board g)) by reflexivity.
  assert (Hkeep : filter has_empty_cell (board g1) = board g1).
  { rewrite Hb1, filter_app, filter_has_empty_repeat, filter_twice.
    reflexivity. }
  assert (Hlen1 : Z.of_nat (length (board g1)) = BOARD_HEIGHT).
  { rewrite Hb1, length_app, repeat_length. lia. }
  assert (Hnone : length (filter full_row (board g1)) = 0%nat).
  { pose proof (full_rows_count (board g1)) as H1.
    rewrite Hkeep in H1. lia. }
  split; [now apply length_zero_iff_nil|]. split.
  - change (board g2) with
      (repeat empty_row
         (Z.to_nat (BOARD_HEIGHT
                    - Z.of_nat (length (filter has_empty_cell (board g1)))))
       ++ filter has_empty_cell (board g1)).
    rewrite Hkeep. replace (Z.to_nat _) with 0%nat by lia. reflexivity.
  - unfold g2. rewrite (clear_full_rows_score g1 Hlen1), Hnone. simpl. lia.
Qed.

Lemma clear_full_rows_twice_witness :
  Z.of_nat (length (board one_full_row)) = BOARD_HEIGHT /\
  score (snd (clear_full_rows (snd (clear_full_rows one_full_row))))
  = score (snd (clear_full_rows one_full_row)).
Proof.
  assert (Hlen : Z.of_nat (length (board one_full_row)) = BOARD_HEIGHT)
    by reflexivity.
  split; [exact Hlen|].
  exact (proj2 (proj2 (clear_full_rows_twice one_full_row Hlen))).
Defined.

(** ** Offsets *)

Lemma valid_move_traced_moved (b : board_t) (p : Piece.t) (a c dx dy : Z) :
  valid_move_traced b (moved p a c) dx dy
  = valid_move_traced b p (a + dx) (c + dy).
Proof.
  unfold valid_move_traced.
  change (Piece.shape (moved p a c)) with (Piece.shape p).
  generalize 0 at 2 4. generalize (Piece.shape p). intros l i.
  apply for_enum_ext. intros yi row.
  apply for_enum_ext. intros xi v. unfold valid_cell, moved.
  cbn [Piece.x Piece.y set_x set_y].
  replace (Piece.x p + a + xi + dx) with (Piece.x p + xi + (a + dx)) by lia.
  replace (Piece.y p + c + yi + dy) with (Piece.y p + yi + (c + dy)) by lia.
  reflexivity.
Qed.

(** [valid_move] looks at the shape, the column and the row of the piece
    only. *)
Lemma valid_move_traced_ext (b : board_t) (p q : Piece.t) (dx dy : Z) :
  Piece.shape p = Piece.shape q -> Piece.x p = Piece.x q ->
  Piece.y p = Piece.y q ->
  valid_move_traced b p dx dy = valid_move_traced b q dx dy.
Proof.
  intros Hs Hx Hy. unfold valid_move_traced. rewrite Hs.
  generalize 0 at 2 4. generalize (Piece.shape q). intros l i.
  apply for_enum_ext. intros yi row.
  apply for_enum_ext. intros xi v. unfold valid_cell. now rewrite Hx, Hy.
Qed.

(** X9: [valid_move(dx, dy)] is [valid_move(0, 0)] for the piece taken to
    [(x + dx, y + dy)]; hence offsets add up: asking for [(dx, dy)] after a
    move by [(a, c)] is asking for [(a + dx, c + dy)] before it, and the
    same board positions are read. *)
Theorem valid_move_of_moved (b : board_t) (p : Piece.t) (a c dx dy : Z) :
  valid_move_on b p dx dy = valid_move_on b (moved p dx dy) 0 0 /\
  valid_move_on b (moved p a c) dx dy = valid_move_on b p (a + dx) (c + dy) /\
  valid_move_reads b (moved p a c) dx dy = valid_move_reads b p (a + dx) (c + dy).
Proof.
  split; [|split].
  - unfold valid_move_on. rewrite valid_move_traced_moved.
    now rewrite !Z.add_0_r.
  - unfold valid_move_on. now rewrite valid_move_traced_moved.
  - unfold valid_move_reads. now rewrite valid_move_traced_moved.
Qed.

(** ** Writing a piece into the board *)

Lemma py_index_lookup {A : Type} (l : list A) (i : Z) :
  0 <= i -> py_index l i = nth_error l (Z.to_nat i).
Proof.
  intros Hi. unfold py_index.
  destruct ((0 <=? i) && (i <? Z.of_nat (length l))) eqn:E1; [reflexivity|].
  replace ((- Z.of_nat (length l) <=? i) && (i <? 0)) with false.
  - symmetry. apply nth_error_None.
    apply andb_false_iff in E1. rewrite Z.leb_gt, Z.ltb_ge in E1. lia.
  - symmetry. apply andb_false_iff. right. apply Z.ltb_ge. lia.
Qed.

Lemma py_setitem_in_range {A : Type} (l : list A) (i : Z) (v : A) :
  0 <= i < Z.of_nat (length l) ->
  py_setitem l i v = Some (replace_nth l (Z.to_nat i) v).
Proof.
  intros Hi. unfold py_setitem.
  replace ((0 <=? i) && (i <? Z.of_nat (length l))) with true; [reflexivity|].
  symmetry. apply andb_true_iff. rewrite Z.leb_le, Z.ltb_lt. lia.
Qed.

Lemma nth_error_replace_same {A : Type} (l : list A) :
  forall k v, (k < length l)%nat -> nth_error (replace_nth l k v) k = Some v.
Proof.
  induction l as [|a l IH]; intros [|k] v Hk; simpl in *; try lia; auto.
  apply IH. lia.
Qed.

Lemma nth_error_replace_other {A : Type} (l : list A) :
  forall k j v, j <> k -> nth_error (replace_nth l k v) j = nth_error l j.
Proof.
  induction l as [|a l IH]; intros [|k] [|j] v Hjk; simpl; auto;
    try congruence.
Qed.

(** An assignment inside the board returns; afterwards the cell holds the
    value and every other cell is as before. *)
Lemma board_setitem_in_grid (r c : Z) (v : cell) (g : Tetris) :
  wf_board (board g) -> in_grid r c ->
  exists g',
    board_setitem r c v g = (Val tt, g') /\
    same_but_board g g' /\ wf_board (board g') /\
    board_get (board g') r c = Some v /\
    (forall r' c', 0 <= r' -> 0 <= c' -> (r', c') <> (r, c) ->
       board_get (board g') r' c' = board_get (board g) r' c').
Proof.
  intros Hwf [Hr Hc]. pose proof Hwf as [Hlen Hrows].
  unfold board_setitem.
  destruct (py_index_nonneg (board g) r) as (row & Hrow & Hnth); [lia|].
  rewrite Hrow.
  assert (Hw : Z.of_nat (length row) = BOARD_WIDTH).
  { rewrite Forall_forall in Hrows. apply Hrows.
    eapply nth_error_In; eauto. }
  rewrite (py_setitem_in_range row c v) by lia.
  rewrite (py_setitem_in_range (board g) r) by lia.
  set (row' := replace_nth row (Z.to_nat c) v).
  set (b' := replace_nth (board g) (Z.to_nat r) row').
  exists (set_board g b'). split; [reflexivity|].
  split; [repeat split|].
  assert (Hrow' : nth_error b' (Z.to_nat r) = Some row').
  { apply nth_error_replace_same. lia. }
  split.
  { split.
    - unfold b'. cbn [board set_board]. rewrite replace_nth_length. exact Hlen.
    - unfold b'. cbn [board set_board]. apply replace_nth_Forall; [exact Hrows|].
      unfold row'. rewrite replace_nth_length. exact Hw. }
  cbn [board set_board]. split.
  - unfold board_get. rewrite (py_index_lookup b' r), Hrow' by lia.
    rewrite (py_index_lookup row' c) by lia.
    apply nth_error_replace_same. lia.
  - intros r' c' Hr' Hc' Hne. unfold board_get.
    rewrite (py_index_lookup b' r'), (py_index_lookup (board g) r') by lia.
    destruct (Z.eq_dec r' r) as [->|Hrr].
    + rewrite Hrow', Hnth.
      rewrite (py_index_lookup row' c'), (py_index_lookup row c') by lia.
      apply nth_error_replace_other. intros E. apply Hne.
      f_equal. apply Z2Nat.inj; lia.
    + unfold b'. rewrite nth_error_replace_other; [reflexivity|].
      intros E. apply Hrr. apply Z2Nat.inj; lia.
Qed.

Lemma same_but_board_trans (g0 g1 g2 : Tetris) :
  same_but_board g0 g1 -> same_but_board g1 g2 -> same_but_board g0 g2.
Proof.
  unfold same_but_board. intros (A1 & A2 & A3 & A4) (B1 & B2 & B3 & B4).
  repeat split; congruence.
Qed.

Section LockCells.

Variable p0 : Piece.t.

(** Lines 113-114: the body of the inner loop of [lock_piece]. *)
Local Abbreviation lock_cell yi :=
  (fun xi v =>
     if v =? 1 then
       g <- get ;;
       let p := current_piece g in
       board_setitem (Piece.y p + yi) (Piece.x p + xi) (Some (Piece.color p))
     else ret tt).

Lemma lock_row_spec (yi : Z) (row : list Z) :
  forall xi0 g,
    current_piece g = p0 -> wf_board (board g) ->
    (forall k, nth_error row k = Some 1 ->
       in_grid (Piece.y p0 + yi) (Piece.x p0 + (xi0 + Z.of_nat k))) ->
    exists g',
      for_enumM (lock_cell yi) xi0 row g = (Val tt, g') /\
      same_but_board g g' /\ wf_board (board g') /\
      (forall k, nth_error row k = Some 1 ->
         board_get (board g') (Piece.y p0 + yi) (Piece.x p0 + (xi0 + Z.of_nat k))
         = Some (Some (Piece.color p0))) /\
      (forall r' c', 0 <= r' -> 0 <= c' ->
         (forall k, nth_error row k = Some 1 ->
            (r', c') <> (Piece.y p0 + yi, Piece.x p0 + (xi0 + Z.of_nat k))) ->
         board_get (board g') r' c' = board_get (board g) r' c').
Proof.
  induction row as [|v rest IH]; intros xi0 g Hp Hwf Hin.
  - exists g. split; [reflexivity|]. split; [repeat split|].
    split; [exact Hwf|]. split; [intros [|k] H; discriminate | reflexivity].
  - cbn [for_enumM].
    assert (Hrest : forall k, nth_error rest k = Some 1 ->
              in_grid (Piece.y p0 + yi) (Piece.x p0 + (xi0 + 1 + Z.of_nat k))).
    { intros k Hk. specialize (Hin (S k) Hk).
      now replace (xi0 + 1 + Z.of_nat k) with (xi0 + Z.of_nat (S k)) by lia. }
    destruct (Z.eqb_spec v 1) as [->|Hv].
    + pose proof (Hin 0%nat eq_refl) as Hhere.
      replace (xi0 + Z.of_nat 0) with xi0 in Hhere by lia.
      destruct (board_setitem_in_grid _ _ (Some (Piece.color p0)) g Hwf Hhere)
        as (g1 & E1 & Hsame1 & Hwf1 & Hget1 & Hother1).
      assert (Hp1 : current_piece g1 = p0)
        by (destruct Hsame1 as [-> _]; exact Hp).
      destruct (IH (xi0 + 1) g1 Hp1 Hwf1 Hrest)
        as (g' & E' & Hsame' & Hwf' & Hget' & Hother').
      exists g'. split.
      { rewrite (bind_val _ _ g g1 tt); [exact E'|].
        change (1 =? 1) with true. cbv iota.
        unfold bind, get. rewrite Hp. exact E1. }
      split; [eapply same_but_board_trans; eauto|]. split; [exact Hwf'|].
      destruct Hhere as [Hr Hc]. split.
      * intros [|k] Hk.
        -- replace (xi0 + Z.of_nat 0) with xi0 by lia.
           rewrite Hother'; [exact Hget1 | lia | lia |].
           intros k _ E. injection E as E. lia.
        -- replace (xi0 + Z.of_nat (S k)) with (xi0 + 1 + Z.of_nat k) by lia.
           now apply Hget'.
      * intros r' c' Hr' Hc' Hne.
        rewrite Hother'; [apply Hother1; auto|auto|auto|].
        -- specialize (Hne 0%nat eq_refl).
           now replace (xi0 + Z.of_nat 0) with xi0 in Hne by lia.
        -- intros k Hk. specialize (Hne (S k) Hk).
           now replace (xi0 + 1 + Z.of_nat k) with (xi0 + Z.of_nat (S k)) by lia.
    + destruct (IH (xi0 + 1) g Hp Hwf Hrest)
        as (g' & E' & Hsame' & Hwf' & Hget' & Hother').
      exists g'. split; [exact E'|].
      split; [exact Hsame'|]. split; [exact Hwf'|]. split.
      * intros [|k] Hk; [simpl in Hk; congruence|].
        replace (xi0 + Z.of_nat (S k)) with (xi0 + 1 + Z.of_nat k) by lia.
        now apply Hget'.
      * intros r' c' Hr' Hc' Hne. apply Hother'; auto.
        intros k Hk. specialize (Hne (S k) Hk).
        now replace (xi0 + 1 + Z.of_nat k) with (xi0 + Z.of_nat (S k)) by lia.
Qed.

Lemma lock_rows_spec (rows : list (list Z)) :
  forall yi0 g,
    current_piece g = p0 -> wf_board (board g) ->
    (forall k row j, nth_error rows k = Some row -> nth_error row j = Some 1 ->
       in_grid (Piece.y p0 + (yi0 + Z.of_nat k)) (Piece.x p0 + (0 + Z.of_nat j))) ->
    exists g',
      for_enumM (fun yi row => for_enumM (lock_cell yi) 0 row) yi0 rows g
      = (Val tt, g') /\
      same_but_board g g' /\ wf_board (board g') /\
      (forall k row j, nth_error rows k = Some row -> nth_error row j = Some 1 ->
         board_get (board g') (Piece.y p0 + (yi0 + Z.of_nat k))
           (Piece.x p0 + (0 + Z.of_nat j))
         = Some (Some (Piece.color p0))) /\
      (forall r' c', 0 <= r' -> 0 <= c' ->
         (forall k row j, nth_error rows k = Some row ->
            nth_error row j = Some 1 ->
            (r', c') <> (Piece.y p0 + (yi0 + Z.of_nat k),
                         Piece.x p0 + (0 + Z.of_nat j))) ->
         board_get (board g') r' c' = board_get (board g) r' c').
Proof.
  induction rows as [|row rest IH]; intros yi0 g Hp Hwf Hin.
  - exists g. split; [reflexivity|]. split; [repeat split|].
    split; [exact Hwf|]. split; [intros [|k] ? ? H; discriminate | reflexivity].
  - cbn [for_enumM].
    assert (Hrow : forall j, nth_error row j = Some 1 ->
              in_grid (Piece.y p0 + yi0) (Piece.x p0 + (0 + Z.of_nat j))).
    { intros j Hj. specialize (Hin 0%nat row j eq_refl Hj).
      now replace (yi0 + Z.of_nat 0) with yi0 in Hin by lia. }
    destruct (lock_row_spec yi0 row 0 g Hp Hwf Hrow)
      as (g1 & E1 & Hsame1 & Hwf1 & Hget1 & Hother1).
    assert (Hp1 : current_piece g1 = p0)
      by (destruct Hsame1 as [-> _]; exact Hp).
    assert (Hrest : forall k row' j, nth_error rest k = Some row' ->
              nth_error row' j = Some 1 ->
              in_grid (Piece.y p0 + (yi0 + 1 + Z.of_nat k))
                (Piece.x p0 + (0 + Z.of_nat j))).
    { intros k row' j Hk Hj. specialize (Hin (S k) row' j Hk Hj).
      now replace (yi0 + 1 + Z.of_nat k) with (yi0 + Z.of_nat (S k)) by lia. }
    destruct (IH (yi0 + 1) g1 Hp1 Hwf1 Hrest)
      as (g' & E' & Hsame' & Hwf' & Hget' & Hother').
    exists g'. split; [rewrite (bind_val _ _ g g1 tt E1); exact E'|].
    split; [eapply same_but_board_trans; eauto|]. split; [exact Hwf'|].
    split.
    + intros [|k] row' j Hk Hj.
      * injection Hk as <-. destruct (Hrow j Hj) as [Hr Hc].
        replace (yi0 + Z.of_nat 0) with yi0 by lia.
        rewrite Hother'; [now apply Hget1 | lia | lia |].
        intros k row' j' _ _ E. injection E as E _. lia.
      * replace (yi0 + Z.of_nat (S k)) with (yi0 + 1 + Z.of_nat k) by lia.
        eapply Hget'; eauto.
    + intros r' c' Hr' Hc' Hne.
      rewrite Hother'; [apply Hother1; auto|auto|auto|].
      * intros j Hj. specialize (Hne 0%nat row j eq_refl Hj).
        now replace (yi0 + Z.of_nat 0) with yi0 in Hne by lia.
      * intros k row' j Hk Hj. specialize (Hne (S k) row' j Hk Hj).
        now replace (yi0 + 1 + Z.of_nat k) with (yi0 + Z.of_nat (S k)) by lia.
Qed.

End LockCells.

Lemma occupied_rows (p : Piece.t) (yi xi : nat) :
  occupied p yi xi <->
  exists row, nth_error (Piece.shape p) yi = Some row /\
              nth_error row xi = Some 1.
Proof.
  unfold occupied, cell_at. split.
  - destruct (nth_error (Piece.shape p) yi) as [row|]; [eauto | discriminate].
  - intros (row & -> & H). exact H.
Qed.

Lemma lock_cells_returns (g : Tetris) :
  let p := current_piece g in
  wf_board (board g) ->
  (forall yi xi, occupied p yi xi ->
     in_grid (Piece.y p + Z.of_nat yi) (Piece.x p + Z.of_nat xi)) ->
  exists g', lock_cells g = (Val tt, g') /\ wf_board (board g').
Proof.
  intros p Hwf Hin.
  destruct (lock_rows_spec p (Piece.shape p) 0 g eq_refl Hwf)
    as (g' & E & _ & Hwf' & _).
  { intros k row j Hk Hj. rewrite !Z.add_0_l. apply Hin.
    apply occupied_rows. eauto. }
  exists g'. split; [exact E | exact Hwf'].
Qed.

(** X10: locking writes the piece and nothing else.  On a board of
    [BOARD_HEIGHT] by [BOARD_WIDTH] cells, when every occupied cell of the
    piece is on the board, the write loop of [lock_piece] returns; it
    changes only the board, which keeps its dimensions; afterwards every
    occupied cell of the piece holds the colour of the piece, and every
    other cell of the board is as before. *)
Theorem lock_cells_writes_piece (g : Tetris) :
  let p := current_piece g in
  wf_board (board g) ->
  (forall yi xi, occupied p yi xi ->
     in_grid (Piece.y p + Z.of_nat yi) (Piece.x p + Z.of_nat xi)) ->
  exists g',
    lock_cells g = (Val tt, g') /\
    same_but_board g g' /\ wf_board (board g') /\
    (forall yi xi, occupied p yi xi ->
       board_get (board g') (Piece.y p + Z.of_nat yi) (Piece.x p + Z.of_nat xi)
       = Some (Some (Piece.color p))) /\
    (forall r c, 0 <= r -> 0 <= c ->
       (forall yi xi, occupied p yi xi ->
          (r, c) <> (Piece.y p + Z.of_nat yi, Piece.x p + Z.of_nat xi)) ->
       board_get (board g') r c = board_get (board g) r c).
Proof.
  intros p Hwf Hin.
  destruct (lock_rows_spec p (Piece.shape p) 0 g eq_refl Hwf)
    as (g' & E & Hsame & Hwf' & Hget & Hother).
  { intros k row j Hk Hj. rewrite !Z.add_0_l. apply Hin.
    apply occupied_rows. eauto. }
  exists g'. split; [exact E|]. split; [exact Hsame|]. split; [exact Hwf'|].
  split.
  - intros yi xi Hocc. apply occupied_rows in Hocc.
    destruct Hocc as (row & Hrow & Hcell).
    specialize (Hget yi row xi Hrow Hcell). now rewrite !Z.add_0_l in Hget.
  - intros r c Hr Hc Hne. apply Hother; auto.
    intros k row j Hk Hj. rewrite !Z.add_0_l. apply Hne.
    apply occupied_rows. eauto.
Qed.

Lemma lock_cells_writes_piece_witness :
  wf_board (board row0_at_lock) /\
  (forall yi xi, occupied (current_piece row0_at_lock) yi xi ->
     in_grid (18 + Z.of_nat yi) (0 + Z.of_nat xi)) /\
  exists g',
    lock_cells row0_at_lock = (Val tt, g') /\
    board_get (board g') 19 1 = Some (Some "yellow"%string) /\
    board_get (board g') 0 4 = Some (Some "red"%string).
Proof.
  assert (Hwf : wf_board (board row0_at_lock))
    by (apply wf_boardb_spec; vm_compute; reflexivity).
  assert (Hin : forall yi xi, occupied (current_piece row0_at_lock) yi xi ->
                  in_grid (18 + Z.of_nat yi) (0 + Z.of_nat xi)).
  { intros yi xi Hocc. unfold occupied, cell_at in Hocc.
    destruct yi as [|[|yi]]; [| |destruct yi; discriminate Hocc];
      (destruct xi as [|[|xi]]; [| |destruct xi; discriminate Hocc]);
      unfold in_grid; rewrite BOARD_HEIGHT_eq, BOARD_WIDTH_eq; simpl; lia. }
  split; [exact Hwf|]. split; [exact Hin|].
  destruct (lock_cells_writes_piece row0_at_lock Hwf Hin)
    as (g' & E & _ & _ & Hget & Hother).
  exists g'. split; [exact E|]. split.
  - apply (Hget 1%nat 1%nat). reflexivity.
  - rewrite (Hother 0 4); [reflexivity | lia | lia |].
    intros yi xi _ Heq.
    assert (H0 : 0 = 18 + Z.of_nat yi) by exact (f_equal fst Heq). lia.
Defined.

(** ** When locking and ticking cannot raise *)

Lemma fits_in_grid (b : board_t) (p : Piece.t) :
  wf_board b -> 0 <= Piece.y p ->
  valid_move_on b p 0 0 = Val true ->
  forall yi xi, occupied p yi xi ->
    in_grid (Piece.y p + Z.of_nat yi) (Piece.x p + Z.of_nat xi).
Proof.
  intros Hwf Hy Hv yi xi Hocc. unfold valid_move_on in Hv.
  destruct (valid_move_traced_cases b p 0 0 Hwf) as [[_ Hn] | [E _]];
    [|rewrite E in Hv; discriminate].
  unfold in_grid.
  assert (Hnb : ~ blocked b (Piece.y p + Z.of_nat yi + 0)
                  (Piece.x p + Z.of_nat xi + 0))
    by (intros Hb; apply Hn; exists yi, xi; auto).
  unfold blocked in Hnb. lia.
Qed.

Lemma lock_piece_returns (rnd : nat * nat) (g : Tetris) :
  wf_board (board g) -> 0 <= Piece.y (current_piece g) ->
  valid_move_on (board g) (current_piece g) 0 0 = Val true ->
  fst (lock_piece rnd g) = Val tt.
Proof.
  intros Hwf Hy Hv.
  destruct (lock_cells_returns g Hwf (fits_in_grid _ _ Hwf Hy Hv))
    as (g1 & E1 & Hwf1).
  pose proof (lock_piece_cases rnd g) as Hcases. cbv zeta in Hcases.
  rewrite E1 in Hcases. simpl fst in Hcases. simpl snd in Hcases.
  destruct Hcases as [[E _] | [_ [[_ E] | [[_ E] | [E _]]]]];
    try discriminate E; try (rewrite E; reflexivity).
  exfalso. revert E. apply valid_move_on_total.
  cbn [board set_current_piece]. now apply clear_full_rows_wf_board.
Qed.

(** X11: on a board of [BOARD_HEIGHT] by [BOARD_WIDTH] cells and with the
    piece at row 0 or lower, [lock_piece] returns whenever
    [valid_move(0, 0)] holds for the piece, and [update] returns whenever
    [valid_move(0, 1)] holds when it starts: [IndexError] can only come from
    a piece that could not move down at the start of the tick. *)
Theorem update_returns_when_piece_can_fall (rnd : nat * nat) (g : Tetris) :
  wf_board (board g) -> 0 <= Piece.y (current_piece g) ->
  (valid_move_on (board g) (current_piece g) 0 0 = Val true ->
   fst (lock_piece rnd g) = Val tt) /\
  (valid_move_on (board g) (current_piece g) 0 1 = Val true ->
   fst (update rnd g) = Val (running (snd (update rnd g)))).
Proof.
  intros Hwf Hy. split; [now apply lock_piece_returns|]. intros Hv.
  destruct (gravity_step_facts g)
    as (crossed & Hc & Hb & _ & _ & _ & Hsh & _ & Hx & Hyes & Hno).
  rewrite update_eq.
  destruct (gravity_step g) as [r g1]. simpl in Hc, Hb, Hsh, Hx, Hyes, Hno.
  assert (Hwf1 : wf_board (board g1)) by now rewrite Hb.
  subst r. destruct crossed; [|now rewrite update_tail_wf].
  destruct (Hyes eq_refl) as (_ & Hy1 & _).
  assert (Hv1 : valid_move_on (board g1) (current_piece g1) 0 0 = Val true).
  { rewrite Hb, <- Hv. unfold valid_move_on.
    rewrite (valid_move_traced_ext (board g) (current_piece g1)
               (moved (current_piece g) 0 1) 0 0).
    - now rewrite valid_move_traced_moved.
    - exact Hsh.
    - rewrite Hx. unfold moved. cbn [Piece.x set_x set_y]. lia.
    - rewrite Hy1. reflexivity. }
  rewrite check_collision_eq.
  pose proof (valid_move_on_total (board g1) (current_piece g1) 0 1 Hwf1) as Ht.
  destruct (valid_move_on (board g1) (current_piece g1) 0 1) as [[|]|];
    [now rewrite update_tail_wf| |now elim Ht].
  assert (Hlock : fst (lock_piece rnd g1) = Val tt)
    by (apply lock_piece_returns; auto; lia).
  assert (Hwf2 : wf_board (board (snd (lock_piece rnd g1))))
    by (apply (keeps_lock_piece (fun g => wf_board (board g))); auto).
  destruct (lock_piece rnd g1) as [[[]|] g2]; [|discriminate Hlock].
  simpl snd in Hwf2. now rewrite update_tail_wf.
Qed.

Lemma update_returns_when_piece_can_fall_witness :
  wf_board (board row0_game) /\ 0 <= Piece.y (current_piece row0_game) /\
  valid_move_on (board row0_game) (current_piece row0_game) 0 1 = Val true /\
  fst (update (1, 1)%nat row0_game)
  = Val (running (snd (update (1, 1)%nat row0_game))).
Proof.
  assert (Hwf : wf_board (board row0_game))
    by (apply wf_boardb_spec; vm_compute; reflexivity).
  assert (Hy : 0 <= Piece.y (current_piece row0_game)) by (simpl; lia).
  assert (Hv : valid_move_on (board row0_game) (current_piece row0_game) 0 1
               = Val true) by (vm_compute; reflexivity).
  split; [exact Hwf|]. split; [exact Hy|]. split; [exact Hv|].
  exact (proj2 (update_returns_when_piece_can_fall (1, 1)%nat row0_game Hwf Hy)
           Hv).
Defined.

(** ** Facts about [draw_board] *)

Lemma draw_piece_cells_spec (p : Piece.t) (y : Z) (row : list Z) :
  forall x0 rect,
    In rect (draw_piece_cells p y x0 row) <->
    exists k, nth_error row k = Some 1 /\
              rect = piece_square p y (x0 + Z.of_nat k).
Proof.
  induction row as [|v row IH]; intros x0 rect; cbn [draw_piece_cells].
  - split; [intros [] | intros ([|k] & H & _); discriminate].
  - rewrite in_app_iff, IH. split.
    + intros [Hhere | (k & Hk & ->)].
      * destruct (Z.eqb_spec v 1) as [->|]; [|destruct Hhere].
        destruct Hhere as [<- | []]. exists 0%nat.
        split; [reflexivity|]. now rewrite Z.add_0_r.
      * exists (S k). split; [exact Hk|]. f_equal. lia.
    + intros ([|k] & Hk & ->).
      * left. simpl in Hk. injection Hk as ->. simpl.
        rewrite Z.add_0_r. now left.
      * right. exists k. split; [exact Hk|]. f_equal. lia.
Qed.

Lemma draw_piece_rows_spec (p : Piece.t) (rows : list (list Z)) :
  forall y0 rect,
    In rect (draw_piece_rows p y0 rows) <->
    exists k row j, nth_error rows k = Some row /\ nth_error row j = Some 1 /\
                    rect = piece_square p (y0 + Z.of_nat k) (Z.of_nat j).
Proof.
  induction rows as [|row rows IH]; intros y0 rect; cbn [draw_piece_rows].
  - split; [intros [] | intros ([|k] & ? & ? & H & _); discriminate].
  - rewrite in_app_iff, IH, draw_piece_cells_spec. split.
    + intros [(j & Hj & ->) | (k & row' & j & Hk & Hj & ->)].
      * exists 0%nat, row, j. split; [reflexivity|]. split; [exact Hj|].
        now rewrite Z.add_0_r, Z.add_0_l.
      * exists (S k), row', j. split; [exact Hk|]. split; [exact Hj|].
        f_equal. lia.
    + intros ([|k] & row' & j & Hk & Hj & ->).
      * left. simpl in Hk. injection Hk as <-. exists j.
        split; [exact Hj|]. now rewrite Z.add_0_r, Z.add_0_l.
      * right. exists k, row', j. split; [exact Hk|]. split; [exact Hj|].
        f_equal. lia.
Qed.

(** X12: on a board of [BOARD_HEIGHT] by [BOARD_WIDTH] cells [draw_board]
    returns, and the rectangles on the canvas are then the rectangle of
    every locked cell of the board (filled with the colour of the cell, at
    [(col * BLOCK_SIZE, row * BLOCK_SIZE)]), the rectangle of every occupied
    cell of the piece (filled with the colour of the piece, at column
    [x + xi] and at the pixel height [pixel_y + yi * BLOCK_SIZE]), and no
    other; every rectangle is a square of side [BLOCK_SIZE] with a black
    outline, and the rectangles of locked cells lie inside the canvas. *)
Theorem draw_board_spec (g : Tetris) :
  wf_board (board g) ->
  let p := current_piece g in
  exists rects,
    draw_board g = (rects, Val tt) /\
    (forall rect,
        In rect rects <->
        (exists row col name,
            in_grid row col /\
            board_get (board g) row col = Some (Some name) /\
            rect = locked_square row col name) \/
        (exists yi xi : nat,
            occupied p yi xi /\
            rect = piece_square p (Z.of_nat yi) (Z.of_nat xi))) /\
    (forall rect,
        In rect rects ->
        rx2 rect - rx1 rect = BLOCK_SIZE /\ ry2 rect - ry1 rect = BLOCK_SIZE /\
        outline rect = "black"%string) /\
    (forall row col name,
        in_grid row col ->
        let rect := locked_square row col name in
        0 <= rx1 rect /\ rx2 rect <= CANVAS_WIDTH /\
        0 <= ry1 rect /\ ry2 rect <= CANVAS_HEIGHT).
Proof.
  intros Hwf p.
  destruct (draw_locked_rows_spec (board g) (range BOARD_HEIGHT)
              (range BOARD_WIDTH) Hwf) as (locked & E & Hlocked).
  { intros y. apply in_range. }
  { intros x. apply in_range. }
  unfold draw_board. rewrite E. fold p.
  eexists. split; [reflexivity|].
  assert (Hiff : forall rect,
    In rect (locked ++ draw_piece_rows p 0 (Piece.shape p)) <->
    (exists row col name,
        in_grid row col /\
        board_get (board g) row col = Some (Some name) /\
        rect = locked_square row col name) \/
    (exists yi xi : nat,
        occupied p yi xi /\
        rect = piece_square p (Z.of_nat yi) (Z.of_nat xi))).
  { intros rect. rewrite in_app_iff, Hlocked, draw_piece_rows_spec. split.
    - intros [(y & x & name & Hy & Hx & Hget & ->)
             | (k & row & j & Hk & Hj & ->)].
      + left. exists y, x, name. apply in_range in Hy, Hx.
        unfold in_grid. auto.
      + right. exists k, j. split; [apply occupied_rows; eauto|].
        now rewrite Z.add_0_l.
    - intros [(y & x & name & [Hy Hx] & Hget & ->) | (yi & xi & Hocc & ->)].
      + left. exists y, x, name. rewrite !in_range. auto.
      + right. apply occupied_rows in Hocc. destruct Hocc as (row & Hk & Hj).
        exists yi, row, xi. rewrite Z.add_0_l. auto. }
  split; [exact Hiff|]. split.
  - intros rect Hin. apply Hiff in Hin.
    destruct Hin as [(y & x & name & _ & _ & ->) | (yi & xi & _ & ->)];
      cbn [rx1 rx2 ry1 ry2 outline locked_square piece_square];
      unfold BLOCK_SIZE; repeat split; lia.
  - intros row col name [Hr Hc]. cbv zeta.
    cbn [rx1 rx2 ry1 ry2 locked_square].
    rewrite BOARD_HEIGHT_eq in Hr. rewrite BOARD_WIDTH_eq in Hc.
    unfold BLOCK_SIZE, CANVAS_WIDTH, CANVAS_HEIGHT. lia.
Qed.

Lemma draw_board_spec_witness :
  wf_board (board one_full_row) /\
  exists rects,
    draw_board one_full_row = (rects, Val tt) /\
    In (locked_square 18 0 "blue") rects /\
    length rects = 15%nat.
Proof.
  assert (Hwf : wf_board (board one_full_row))
    by (apply wf_boardb_spec; vm_compute; reflexivity).
  split; [exact Hwf|].
  destruct (draw_board_spec one_full_row Hwf) as (rects & E & Hiff & _).
  exists rects. split; [exact E|]. split.
  - apply Hiff. left. exists 18, 0, "blue"%string.
    split; [unfold in_grid; rewrite BOARD_HEIGHT_eq, BOARD_WIDTH_eq; lia|].
    split; reflexivity.
  - assert (E' : fst (draw_board one_full_row) = rects) by now rewrite E.
    rewrite <- E'. vm_compute. reflexivity.
Defined.

(** ** Rotating any rectangular shape *)

(** [zip] of the unpacked rows is the transpose. *)
Lemma zip_star_transpose (m : matrix) (c : nat) :
  m <> [] -> Forall (fun row => length row = c) m ->
  length (zip_star m) = c /\
  Forall (fun col => length col = length m) (zip_star m) /\
  forall i j, (i < c)%nat -> (j < length m)%nat ->
    cell_at (zip_star m) i j = cell_at m j i.
Proof.
  destruct m as [|first rest]; [congruence|]. intros _ Hall.
  inversion Hall as [|? ? Hfirst Hrest]; subst. cbn [zip_star].
  destruct (zip_from_columns first rest Hrest) as [Hlen Hcols].
  split; [exact Hlen|]. split.
  - apply Forall_forall. intros col Hin.
    apply In_nth_error in Hin. destruct Hin as [i Hi].
    assert (Hlt : (i < length first)%nat)
      by (rewrite <- Hlen; apply nth_error_Some; congruence).
    destruct (Hcols i Hlt) as (col' & Hcol' & Hmap).
    assert (col' = col) as -> by congruence.
    now destruct (column_nth i 0 _ _ Hmap) as [Hl _].
  - intros i j Hi Hj. destruct (Hcols i Hi) as (col & Hcol & Hmap).
    unfold cell_at at 1. rewrite Hcol.
    destruct (nth_error (first :: rest) j) as [row|] eqn:Hrow.
    + destruct (column_nth i j _ _ Hmap) as [_ Hnth].
      rewrite (Hnth row Hrow). unfold cell_at. now rewrite Hrow.
    + apply nth_error_None in Hrow. lia.
Qed.

Lemma cell_at_rev (m : matrix) (i j : nat) :
  (j < length m)%nat -> cell_at (rev m) j i = cell_at m (length m - 1 - j) i.
Proof.
  intros Hj. unfold cell_at. rewrite nth_error_rev.
  destruct (Nat.ltb_spec j (length m)) as [_|Hge]; [|lia].
  now replace (length m - S j)%nat with (length m - 1 - j)%nat by lia.
Qed.

Lemma rotate_shape_turn (m : matrix) :
  rectangular m -> (0 < cols m)%nat ->
  let m' := Piece.rotate_shape m in
  (0 < rows m)%nat /\ rectangular m' /\
  rows m' = cols m /\ cols m' = rows m /\
  forall i j, (i < cols m)%nat -> (j < rows m)%nat ->
    cell_at m' i j = cell_at m (rows m - 1 - j) i.
Proof.
  intros Hrect Hc m'. subst m'. unfold Piece.rotate_shape, rows.
  assert (Hne : m <> []) by (intros ->; inversion Hc).
  assert (Hrne : rev m <> []).
  { intros E. apply Hne. rewrite <- (rev_involutive m), E. reflexivity. }
  destruct (zip_star_transpose (rev m) (cols m) Hrne (rectangular_rev m Hrect))
    as (Hlen & Hall & Hcell).
  rewrite length_rev in Hall, Hcell.
  assert (Hcols : cols (zip_star (rev m)) = length m).
  { unfold cols at 1. destruct (zip_star (rev m)) as [|col rest].
    - simpl in Hlen. lia.
    - inversion Hall; subst. assumption. }
  split; [destruct m; [congruence | simpl; lia]|].
  split; [unfold rectangular; now rewrite Hcols|].
  split; [exact Hlen|]. split; [exact Hcols|].
  intros i j Hi Hj. rewrite Hcell by assumption. now apply cell_at_rev.
Qed.

Lemma matrix_ext (m m' : matrix) (c : nat) :
  length m = length m' ->
  Forall (fun row => length row = c) m ->
  Forall (fun row => length row = c) m' ->
  (forall i j, (i < length m)%nat -> (j < c)%nat ->
     cell_at m i j = cell_at m' i j) ->
  m = m'.
Proof.
  intros Hlen Hm Hm' Hcell. apply nth_error_ext. intros i.
  destruct (Nat.lt_ge_cases i (length m)) as [Hi|Hi].
  - destruct (nth_error m i) as [row|] eqn:Hrow;
      [|apply nth_error_None in Hrow; lia].
    destruct (nth_error m' i) as [row'|] eqn:Hrow';
      [|apply nth_error_None in Hrow'; lia].
    f_equal. apply nth_error_ext. intros j.
    assert (Hl : length row = c)
      by (rewrite Forall_forall in Hm; eapply Hm, nth_error_In; eauto).
    assert (Hl' : length row' = c)
      by (rewrite Forall_forall in Hm'; eapply Hm', nth_error_In; eauto).
    destruct (Nat.lt_ge_cases j c) as [Hj|Hj].
    + specialize (Hcell i j Hi Hj). unfold cell_at in Hcell.
      now rewrite Hrow, Hrow' in Hcell.
    + rewrite (proj2 (nth_error_None row j)), (proj2 (nth_error_None row' j));
        [reflexivity | lia | lia].
  - rewrite (proj2 (nth_error_None m i)), (proj2 (nth_error_None m' i));
      [reflexivity | lia | lia].
Qed.

(** X13: rotation has order four on every shape.  For every rectangular
    matrix with at least one column, two rotations give the half turn (cell
    [(i, j)] is the old cell [(r - 1 - i, c - 1 - j)], same dimensions) and
    four rotations give the matrix back. *)
Theorem rotate_four_times (m : matrix) :
  rectangular m -> (0 < cols m)%nat ->
  (rows (rotate_times 2 m) = rows m /\ cols (rotate_times 2 m) = cols m /\
   forall i j, (i < rows m)%nat -> (j < cols m)%nat ->
     cell_at (rotate_times 2 m) i j
     = cell_at m (rows m - 1 - i) (cols m - 1 - j)) /\
  rotate_times 4 m = m.
Proof.
  intros Hrect Hc.
  assert (Half : forall m0, rectangular m0 -> (0 < cols m0)%nat ->
    rectangular (rotate_times 2 m0) /\
    rows (rotate_times 2 m0) = rows m0 /\ cols (rotate_times 2 m0) = cols m0 /\
    forall i j, (i < rows m0)%nat -> (j < cols m0)%nat ->
      cell_at (rotate_times 2 m0) i j
      = cell_at m0 (rows m0 - 1 - i) (cols m0 - 1 - j)).
  { intros m0 Hr0 Hc0. cbn [rotate_times].
    destruct (rotate_shape_turn m0 Hr0 Hc0) as (Hr & Hrect1 & Hrows1 & Hcols1 & Hcell1).
    assert (Hc1 : (0 < cols (Piece.rotate_shape m0))%nat) by lia.
    destruct (rotate_shape_turn _ Hrect1 Hc1) as (_ & Hrect2 & Hrows2 & Hcols2 & Hcell2).
    split; [exact Hrect2|]. split; [lia|]. split; [lia|].
    intros i j Hi Hj. rewrite Hcell2 by lia. rewrite Hcell1 by lia.
    f_equal; lia. }
  destruct (Half m Hrect Hc) as (Hrect2 & Hrows2 & Hcols2 & Hcell2).
  split; [auto|].
  assert (Hc2 : (0 < cols (rotate_times 2 m))%nat) by lia.
  destruct (Half _ Hrect2 Hc2) as (Hrect4 & Hrows4 & Hcols4 & Hcell4).
  change (rotate_times 2 (rotate_times 2 m)) with (rotate_times 4 m) in *.
  apply (matrix_ext _ _ (cols m)).
  - unfold rows in *. lia.
  - unfold rectangular in Hrect4. now rewrite Hcols4, Hcols2 in Hrect4.
  - exact Hrect.
  - intros i j Hi Hj. unfold rows in *.
    rewrite Hcell4 by lia. rewrite Hcell2 by lia. f_equal; lia.
Qed.

Lemma rotate_four_times_witness :
  rectangular [[1; 1; 1]; [1; 0; 0]] /\
  rotate_times 4 [[1; 1; 1]; [1; 0; 0]] = [[1; 1; 1]; [1; 0; 0]].
Proof.
  assert (Hrect : rectangular [[1; 1; 1]; [1; 0; 0]]) by (repeat constructor).
  split; [exact Hrect|].
  apply (rotate_four_times _ Hrect). unfold cols. simpl. lia.
Defined.

(** ** Falling between two rows *)

Lemma update_between_rows (rnd : nat * nat) (g : Tetris) :
  let p := current_piece g in
  wf_board (board g) ->
  Piece.pixel_y p + drop_speed g < (Piece.y p + 1) * BLOCK_SIZE ->
  update rnd g
  = (Val (running g),
     set_drop_speed
       (set_current_piece g (set_pixel_y p (Piece.pixel_y p + drop_speed g)))
       FALL_SPEED).
Proof.
  intros p Hwf Hlt. rewrite update_eq.
  assert (E : gravity_step g
              = (Val false,
                 set_current_piece g
                   (set_pixel_y p (Piece.pixel_y p + drop_speed g)))).
  { unfold gravity_step, bind, get, modify_piece, modify, ret.
    cbn [current_piece set_current_piece set_pixel_y Piece.pixel_y Piece.y].
    fold p.
    destruct (Z.geb_spec (Piece.pixel_y p + drop_speed g)
                ((Piece.y p + 1) * BLOCK_SIZE)) as [Hge|_]; [lia|].
    reflexivity. }
  rewrite E. rewrite update_tail_wf; [reflexivity | exact Hwf].
Qed.

(** X14: between two rows nothing happens but the fall.  On a board of
    [BOARD_HEIGHT] by [BOARD_WIDTH] cells, which [draw_board] can redraw,
    and as long as the pixel position stays below the next row boundary, an
    [update] asks no [valid_move], locks nothing and returns, having added
    the drop speed to [pixel_y] and reset the speed; so [n] ticks at
    [FALL_SPEED] without a key press move the piece down by exactly [n]
    pixels and change nothing else. *)
Theorem falls_one_pixel_per_tick :
  (forall rnd g,
      let p := current_piece g in
      wf_board (board g) ->
      Piece.pixel_y p + drop_speed g < (Piece.y p + 1) * BLOCK_SIZE ->
      update rnd g
      = (Val (running g),
         set_drop_speed
           (set_current_piece g
              (set_pixel_y p (Piece.pixel_y p + drop_speed g)))
           FALL_SPEED)) /\
  (forall rnds g,
      let p := current_piece g in
      let n := Z.of_nat (length rnds) in
      wf_board (board g) ->
      drop_speed g = FALL_SPEED ->
      Piece.pixel_y p + n < (Piece.y p + 1) * BLOCK_SIZE ->
      run_updates rnds g
      = set_current_piece g (set_pixel_y p (Piece.pixel_y p + n))).
Proof.
  split; [exact update_between_rows|].
  intros rnds g p n Hwf Hspeed Hlt. subst p n.
  revert g Hwf Hspeed Hlt.
  induction rnds as [|rnd rnds IH]; intros g Hwf Hspeed Hlt.
  - destruct g as [b [sh c x y py] sc r d]. unfold run_updates. simpl.
    now rewrite Z.add_0_r.
  - unfold run_updates in *. cbn [fold_left].
    assert (H1 : Piece.pixel_y (current_piece g) + drop_speed g
                 < (Piece.y (current_piece g) + 1) * BLOCK_SIZE).
    { rewrite Hspeed. unfold FALL_SPEED. cbn [length] in Hlt. lia. }
    rewrite (update_between_rows rnd g Hwf H1). cbn [snd].
    rewrite IH.
    + destruct g as [b [sh c x y py] sc r d]. simpl in Hspeed. subst d.
      unfold set_current_piece, set_pixel_y, set_drop_speed. simpl.
      do 2 f_equal. unfold FALL_SPEED. lia.
    + exact Hwf.
    + reflexivity.
    + cbn [current_piece set_current_piece set_drop_speed set_pixel_y
           Piece.pixel_y Piece.y].
      rewrite Hspeed. unfold FALL_SPEED. cbn [length] in Hlt. lia.
Qed.

Lemma falls_one_pixel_per_tick_witness :
  let g := init (1, 1)%nat in
  wf_board (board g) /\
  drop_speed g = FALL_SPEED /\
  Piece.pixel_y (current_piece (run_updates (repeat (0, 0)%nat 29) g)) = 29 /\
  Piece.y (current_piece (run_updates (repeat (0, 0)%nat 29) g)) = 0.
Proof.
  intros g.
  assert (Hwf : wf_board (board g)) by exact wf_empty_board.
  assert (Hspeed : drop_speed g = FALL_SPEED) by reflexivity.
  assert (Hlt : Piece.pixel_y (current_piece g)
                + Z.of_nat (length (repeat (0, 0)%nat 29))
                < (Piece.y (current_piece g) + 1) * BLOCK_SIZE)
    by (vm_compute; reflexivity).
  split; [exact Hwf|]. split; [exact Hspeed|].
  rewrite (proj2 falls_one_pixel_per_tick (repeat (0, 0)%nat 29) g
             Hwf Hspeed Hlt).
  split; reflexivity.
Defined.

(** ** Keys after the end of the game *)

(** X15: [handle_key] never looks at [running]: with [running] set to
    either value a key returns or raises in the same way and leaves the same
    piece, board, score and drop speed; so the keys still move and rotate
    the piece after the game is over. *)
Theorem keys_ignore_running (keysym : string) (g : Tetris) (r : bool) :
  handle_key keysym (set_running g r)
  = (fst (handle_key keysym g), set_running (snd (handle_key keysym g)) r).
Proof.
  destruct (String.eqb_spec keysym "Left") as [->|HL].
  { rewrite !handle_key_Left. cbn [board current_piece set_running].
    destruct (valid_move_on _ _ (-1) 0) as [[|]|]; reflexivity. }
  destruct (String.eqb_spec keysym "Right") as [->|HR].
  { rewrite !handle_key_Right. cbn [board current_piece set_running].
    destruct (valid_move_on _ _ 1 0) as [[|]|]; reflexivity. }
  destruct (String.eqb_spec keysym "Down") as [->|HD].
  { rewrite !handle_key_Down. reflexivity. }
  destruct (String.eqb_spec keysym "Up") as [->|HU].
  { rewrite !handle_key_Up. cbn [board current_piece set_running].
    destruct (valid_move_on _ _ 0 0) as [[|]|]; reflexivity. }
  rewrite !handle_key_other by assumption. reflexivity.
Qed.
